(** * trackmeet: cross-event dependency and result-resolution core

    A shallow embedding of the dependency, autospec, communique and export
    logic of [src/trackmeet/__init__.py], with the properties of the
    specification stated and proved over it. *)

From Stdlib Require Import ZArith Ascii String List Lia.
From stdpp Require Import base option list gmap sets strings pretty relations sorting.

Local Open Scope string_scope.

(** ** Constants of the module *)

(** [MAXREP = 10000  # communique max number] *)
Definition MAXREP : N := 10000%N.

(** [MAX_AUTORECURSE = 8  # maximum levels of autostart dependency] *)
Definition MAX_AUTORECURSE : nat := 8.

(** ** Python string helpers *)

(** ASCII white space as recognised by [str.split()] and [str.strip()]:
    TAB, LF, VT, FF, CR, FS, GS, RS, US and SPACE. *)
Definition is_space (c : ascii) : bool :=
  let n := nat_of_ascii c in
  ((9 <=? n)%nat && (n <=? 13)%nat) || ((28 <=? n)%nat && (n <=? 32)%nat).

(** [s.split()]: the maximal runs of non-space characters, in order. *)
Fixpoint split_ws_go (cur : string) (s : string) : list string :=
  match s with
  | EmptyString => match cur with EmptyString => [] | _ => [cur] end
  | String c s' =>
      if is_space c
      then match cur with
           | EmptyString => split_ws_go EmptyString s'
           | _ => cur :: split_ws_go EmptyString s'
           end
      else split_ws_go (cur ++ String c EmptyString) s'
  end.

Definition split_ws (s : string) : list string := split_ws_go EmptyString s.

(** [s.split(sep)] for a one character separator: the pieces between the
    separators, empty pieces included; never the empty list. *)
Fixpoint split_on_go (sep : ascii) (cur : string) (s : string) : list string :=
  match s with
  | EmptyString => [cur]
  | String c s' =>
      if Ascii.eqb c sep then cur :: split_on_go sep EmptyString s'
      else split_on_go sep (cur ++ String c EmptyString) s'
  end.

Definition split_on (sep : ascii) (s : string) : list string :=
  split_on_go sep EmptyString s.

Fixpoint lstrip (s : string) : string :=
  match s with
  | EmptyString => EmptyString
  | String c s' => if is_space c then lstrip s' else s
  end.

Fixpoint rstrip (s : string) : string :=
  match s with
  | EmptyString => EmptyString
  | String c s' =>
      match rstrip s' with
      | EmptyString => if is_space c then EmptyString else String c EmptyString
      | r => String c r
      end
  end.

(** [s.strip()] *)
Definition strip (s : string) : string := rstrip (lstrip s).

(** [sep.join(l)] *)
Fixpoint join (sep : string) (l : list string) : string :=
  match l with
  | [] => EmptyString
  | [x] => x
  | x :: l' => x ++ sep ++ join sep l'
  end.

(** ** The event directory *)

(** An event record, restricted to the columns read by the modelled code.
    The directory indexes records by their event number ([e['evid']]), so
    the identifier is the key of the map below. *)
Record event : Type := Event {
  ev_type : string;   (* e['type'] *)
  ev_refe : string;   (* e['reference'] *)
  ev_auto : string;   (* e['auto'] *)
  ev_depe : string;   (* e['depend'], white space separated event numbers *)
  ev_resu : bool;     (* e['result']: include in result export *)
  ev_dirty : bool;    (* e['dirty'] *)
}.

(** [self.edb]: event number -> record. *)
Abbreviation eventdb := (gmap string event).

Definition set_dirty (b : bool) (e : event) : event :=
  {| ev_type := ev_type e; ev_refe := ev_refe e; ev_auto := ev_auto e;
     ev_depe := ev_depe e; ev_resu := ev_resu e; ev_dirty := b |}.

(** [self.edb[evno]['dirty']], false for an event that is not there. *)
Definition is_dirty (edb : eventdb) (evno : string) : bool :=
  match edb !! evno with
  | Some ev => ev_dirty ev
  | None => false
  end.

(** [self.edb[evno]['dirty'] = True] *)
Definition mark_dirty (evno : string) (edb : eventdb) : eventdb :=
  alter (set_dirty true) evno edb.

(** ** Dirty tracking: [check_depends_dirty] *)

Module Dirty.

(** The [for dev in ev['depe'].split()] loop of [check_depends_dirty] for
    the event [evno], with the recursive call abstracted as [rec].  The
    loop threads the local set [checks] and the directory, whose records
    the recursive calls mutate. *)
Fixpoint scan_depends
    (rec : eventdb → string → gset string → option (bool * eventdb))
    (evno : string) (devs : list string)
    (checks : gset string) (edb : eventdb) : option (bool * eventdb) :=
  match devs with
  | [] => Some (is_dirty edb evno, edb)               (* return ev['dirty'] *)
  | dev :: devs' =>
      if is_dirty edb evno then Some (is_dirty edb evno, edb)    (* break *)
      else if decide (dev ∈ checks) then scan_depends rec evno devs' checks edb
      else
        match rec edb dev checks with
        | None => None
        | Some (dep, edb1) =>
            let checks1 := {[dev]} ∪ checks in
            let edb2 := if dep then mark_dirty evno edb1 else edb1 in
            scan_depends rec evno devs' checks1 edb2
        end
  end.

(** [check_depends_dirty(evno, checked)] with an explicit recursion budget;
    [None] only when the budget is used up. *)
Fixpoint check_rec (fuel : nat) (edb : eventdb) (evno : string)
    (checked : gset string) : option (bool * eventdb) :=
  match fuel with
  | O => None
  | S fuel' =>
      let checks := {[evno]} ∪ checked in  (* checks = set(checked) + evno *)
      match edb !! evno with
      | None => Some (false, edb)
      | Some ev =>
          scan_depends (check_rec fuel') evno (split_ws (ev_depe ev)) checks edb
      end
  end.

(** The top level call [check_depends_dirty(evno)] ([checked=None]).  The
    budget is one more than the number of events, which is always enough
    ([check_depends_dirty_total] below). *)
Definition check_depends_dirty (edb : eventdb) (evno : string)
  : option (bool * eventdb) :=
  check_rec (S (size edb)) edb evno ∅.

(** [a] names [b] in its depend list. *)
Definition dep_edge (edb : eventdb) (a b : string) : Prop :=
  ∃ ev, edb !! a = Some ev ∧ b ∈ split_ws (ev_depe ev).

(** [e] is stale: its own flag is set, or the flag of an event named
    transitively in its depend list is. *)
Definition stale (edb : eventdb) (e : string) : Prop :=
  ∃ d, rtc (dep_edge edb) e d ∧ is_dirty edb d = true.

(** [reach_av edb S a b]: [b] is reached from [a] along depend lists by a
    path none of whose events is in [S]. *)
Inductive reach_av (edb : eventdb) (S : gset string) : string → string → Prop :=
  | reach_av_refl a : a ∉ S → reach_av edb S a a
  | reach_av_step a b c :
      a ∉ S → dep_edge edb a b → reach_av edb S b c → reach_av edb S a c.

(** What a run may change: only dirty flags of stale events, only to true. *)
Definition marks (edb edb' : eventdb) : Prop :=
  ∀ k, edb' !! k = edb !! k ∨
       ∃ ev, edb !! k = Some ev ∧ edb' !! k = Some (set_dirty true ev) ∧
             stale edb k.

(** The outcome of a call, in terms of the directory it started from. *)
Definition post (edb : eventdb) (S : gset string) (e : string)
    (r : bool * eventdb) : Prop :=
  (r.1 = false → r.2 = edb ∧ ∀ d, reach_av edb S e d → is_dirty edb d = false)
  ∧ (r.1 = true → stale edb e ∧ is_dirty r.2 e = true ∧ marks edb r.2).

End Dirty.

(** ** Communique numbers: [find_communique] *)

Module Communique.

(** [self.commalloc]: report lookup key -> communique number (a string). *)
Abbreviation commalloc := (gmap string string).

(** The first loop, [for c in self.commalloc], over the entries of the
    dictionary: stop at the entry of [lookup] with its value, otherwise
    collect the values of the other entries in [noset]. *)
Fixpoint scan_alloc (lookup : string) (entries : list (string * string))
    (noset : gset string) : option string * gset string :=
  match entries with
  | [] => (None, noset)
  | (c, v) :: rest =>
      if decide (c = lookup) then (Some v, noset)              (* break *)
      else scan_alloc lookup rest ({[v]} ∪ noset)
  end.

(** The [while True] loop.  The result is the last value given to [ret]
    and whether it was written back; [None] only when the budget of
    iterations is used up. *)
Fixpoint alloc_loop (fuel : nat) (cnt : N) (noset : gset string)
  : option (string * bool) :=
  match fuel with
  | O => None
  | S fuel' =>
      let ret := pretty cnt in                          (* ret = str(cnt) *)
      if decide (ret ∉ noset) then Some (ret, true)     (* write back, break *)
      else
        let cnt1 := (cnt + 1)%N in
        if (MAXREP <? cnt1)%N then Some (ret, false)    (* gave up, break *)
        else alloc_loop fuel' cnt1 noset
  end.

(** [find_communique(lookup)]: the value returned ([None] is Python's
    [None]) and the dictionary after the call. *)
Definition find_communique (ca : commalloc) (lookup : string)
  : option (option string * commalloc) :=
  match scan_alloc lookup (map_to_list ca) ∅ with
  | (Some v, _) => Some (Some v, ca)
  | (None, noset) =>
      match alloc_loop (N.to_nat MAXREP) 1 noset with
      | None => None
      | Some (ret, true) => Some (Some ret, <[lookup := ret]> ca)
      | Some (ret, false) => Some (Some ret, ca)
      end
  end.

(** The number [v] is assigned to some key of the dictionary. *)
Definition assigned (ca : commalloc) (v : string) : Prop :=
  ∃ k, ca !! k = Some v.

(** A dictionary that assigns every number from 1 to [MAXREP]: the key
    ["k" + str(n)] holds the number [str(n)]. *)
Definition full_entry (n : nat) : string * string :=
  (String "k" (pretty n), pretty n).

Definition full_alloc : commalloc :=
  list_to_map (full_entry <$> seq 1 (N.to_nat MAXREP)).

(** A dictionary with the numbers 1 and 3 taken. *)
Definition small_alloc : commalloc :=
  <["startlist1, 2" := "1"]> (<["result1, 2" := "3"]> ∅).

End Communique.

(** ** Autospec resolution: [autostart_riders] and [autoplace_riders] *)

Module Autospec.

(** A field of a result row: an [int], a string, or [None]. *)
Inductive cell : Type :=
  | CInt (n : Z)
  | CStr (s : string)
  | CNone.

Global Instance cell_eq_dec : EqDecision cell.
Proof. solve_decision. Defined.

(** A row [ri] yielded by [h.result_gen()]: [ri[0]] the rider number,
    [ri[1]] the rank, then the further columns. *)
Record row : Type := Row {
  r_no : string;
  r_rank : cell;
  r_more : list cell;
}.

(** [len(ri)] and [ri[i]] *)
Definition row_len (ri : row) : nat := 2 + length (r_more ri).

Definition row_get (ri : row) (i : nat) : cell :=
  match i with
  | 0 => CStr (r_no ri)
  | 1 => r_rank ri
  | S (S j) => default CNone (r_more ri !! j)
  end.

(** One call [race.addrider(no, seed)]. *)
Definition starter : Type := string * cell.

(** The collaborators of the resolver: [strops.placeset] of the metarace
    library and the event handlers built by [mkrace].  A handler is
    observed after [loadconfig()], through its event number, its event
    record and the riders added to it while it was loaded. *)
Record collab : Type := Collab {
  placeset : string → list Z;
  h_seedsrc : string → event → option nat;
  h_finished : string → event → list starter → bool;
  h_standingstr : string → event → list starter → string;
  h_result_gen : string → event → list starter → list row;
}.

Section Resolver.

Variable X : collab.
Variable edb : eventdb.

(** The seed carried forward: [ri[infocol]] when [infocol] is given and
    within the row, [None] otherwise. *)
Definition seed_of (infocol : option nat) (ri : row) : cell :=
  match infocol with
  | Some i => if (i <? row_len ri)%nat then row_get ri i else CNone
  | None => CNone
  end.

(** The rows ranked [p], in the order of the result, as the calls
    [(rider, seed)] they give rise to, and as rider numbers. *)
Definition ranked_at (infocol : option nat) (p : Z) (rows : list row)
  : list starter :=
  (λ ri, (r_no ri, seed_of infocol ri)) <$> filter (λ ri, r_rank ri = CInt p) rows.

Definition riders_at (p : Z) (rows : list row) : list string :=
  r_no <$> filter (λ ri, r_rank ri = CInt p) rows.

(** [for ri in h.result_gen()] of [autostart_riders]: file the rows whose
    rank is an [int] of the place-set under their rank. *)
Fixpoint load_places (ps : list Z) (infocol : option nat) (rows : list row)
    (evplacemap : gmap Z (list starter)) : gmap Z (list starter) :=
  match rows with
  | [] => evplacemap
  | ri :: rows' =>
      match r_rank ri with
      | CInt rank =>
          if decide (rank ∈ ps) then
            let cur := default [] (evplacemap !! rank) in
            load_places ps infocol rows'
              (<[rank := (cur ++ [(r_no ri, seed_of infocol ri)])%list]> evplacemap)
          else load_places ps infocol rows' evplacemap
      | _ => load_places ps infocol rows' evplacemap
      end
  end.

(** [for p in placeset: if p in evplacemap: for ri in evplacemap[p]:
    race.addrider(ri[0], ri[1])]: the calls made, in order. *)
Definition emit_places (ps : list Z) (evplacemap : gmap Z (list starter))
  : list starter :=
  flat_map (λ p, default [] (evplacemap !! p)) ps.

(** Modelled from the spec: [h = mkrace(self, e, False); h.loadconfig()]
    (the handler modules are not part of the source at hand).  Loading the
    handler of a source event resolves that event's own autospec through
    [autostart_riders], with the handler as target and its own seed column;
    [rec] is that nested call. *)
Definition load_handler
    (rec : string → string → option nat → gset string
           → option (gset string * list starter))
    (e : event) (evno : string) (ar : gset string)
  : option (gset string * list starter) :=
  rec (ev_type e) (ev_auto e) (h_seedsrc X evno e) ar.

(** The condition of [autostart_riders] on the source:
    [h.finished or (h.evtype == 'omnium' and race.evtype != 'classification')].
    The [evtype] of a handler is the type of its event, as [mkrace]
    dispatches on it. *)
Definition source_ready (race_evtype : string) (evno : string) (e : event)
    (hst : list starter) : bool :=
  h_finished X evno e hst
  || (String.eqb (ev_type e) "omnium"
      && negb (String.eqb race_evtype "classification")).

(** The body of the loop of [autostart_riders] for one group.  The state
    is [self.autorecurse] and the calls of [race.addrider] made so far. *)
Definition autostart_group
    (rec : string → string → option nat → gset string
           → option (gset string * list starter))
    (race_evtype : string) (infocol : option nat) (egroup : string)
    (st : gset string * list starter) : option (gset string * list starter) :=
  match split_on ":" egroup with
  | [a; b] =>
      let evno := strip a in
      match edb !! evno with
      | Some e =>
          if decide (evno ∈ st.1) then Some st      (* ignoring loop *)
          else
            let ar1 := {[evno]} ∪ st.1 in
            let ps := placeset X b in
            match load_handler rec e evno ar1 with
            | None => None
            | Some (ar2, hst) =>
                let evplacemap :=
                  if source_ready race_evtype evno e hst
                  then load_places ps infocol (h_result_gen X evno e hst) ∅
                  else ∅ in
                Some (ar2 ∖ {[evno]}, (st.2 ++ emit_places ps evplacemap)%list)
            end
      | None => Some st                              (* missing event *)
      end
  | _ => Some st                                     (* erroneous group *)
  end.

Fixpoint autostart_groups
    (rec : string → string → option nat → gset string
           → option (gset string * list starter))
    (race_evtype : string) (infocol : option nat) (egroups : list string)
    (st : gset string * list starter) : option (gset string * list starter) :=
  match egroups with
  | [] => Some st
  | egroup :: rest =>
      match autostart_group rec race_evtype infocol egroup st with
      | None => None
      | Some st1 => autostart_groups rec race_evtype infocol rest st1
      end
  end.

(** [autostart_riders(race, autospec, infocol, final)] started with
    [self.autorecurse = ar]: the guard afterwards and the riders added to
    [race], in order.  [None] only when the budget is used up.  The
    parameter [final] is not read by the body. *)
Fixpoint autostart_riders (fuel : nat) (race_evtype : string)
    (autospec : string) (infocol : option nat) (final : bool)
    (ar : gset string) : option (gset string * list starter) :=
  match fuel with
  | O => None
  | S fuel' =>
      if decide (MAX_AUTORECURSE < size ar) then Some (ar, [])   (* return *)
      else
        autostart_groups
          (λ ty auto ic ar', autostart_riders fuel' ty auto ic true ar')
          race_evtype infocol (split_on ";" autospec) (ar, [])
  end.

(** [for ri in h.result_gen()] of [autoplace_riders]. *)
Fixpoint load_ranks (ps : list Z) (rows : list row)
    (places : gmap Z (list string)) : gmap Z (list string) :=
  match rows with
  | [] => places
  | ri :: rows' =>
      match r_rank ri with
      | CInt rank =>
          if decide (rank ∈ ps) then
            let cur := default [] (places !! rank) in
            load_ranks ps rows' (<[rank := (cur ++ [r_no ri])%list]> places)
          else load_ranks ps rows' places
      | _ => load_ranks ps rows' places
      end
  end.

(** The body of the loop of [autoplace_riders] for one group. *)
Definition autoplace_group (fuel : nat) (final : bool) (egroup : string)
    (st : gset string * gmap Z (list string))
  : option (gset string * gmap Z (list string)) :=
  match split_on ":" egroup with
  | [a; b] =>
      let evno := strip a in
      if decide (evno ∈ st.1) then Some st          (* ignoring loop *)
      else
        let ar1 := {[evno]} ∪ st.1 in
        let ps := placeset X b in
        match edb !! evno with
        | Some e =>
            match load_handler
                    (λ ty auto ic ar', autostart_riders fuel ty auto ic true ar')
                    e evno ar1 with
            | None => None
            | Some (ar2, hst) =>
                let isFinal := String.eqb (h_standingstr X evno e hst) "Result" in
                let places :=
                  if negb final || isFinal
                  then load_ranks ps (h_result_gen X evno e hst) st.2
                  else st.2 in
                Some (ar2 ∖ {[evno]}, places)
            end
        | None => Some (ar1 ∖ {[evno]}, st.2)        (* event not found *)
        end
  | _ => Some st                                     (* erroneous group *)
  end.

Fixpoint autoplace_groups (fuel : nat) (final : bool) (egroups : list string)
    (st : gset string * gmap Z (list string))
  : option (gset string * gmap Z (list string)) :=
  match egroups with
  | [] => Some st
  | egroup :: rest =>
      match autoplace_group fuel final egroup st with
      | None => None
      | Some st1 => autoplace_groups fuel final rest st1
      end
  end.

(** [sorted(places)]: the ranks on file, ascending. *)
Definition sorted_places (places : gmap Z (list string)) : list Z :=
  merge_sort Z.le (elements (dom places)).

(** [for place in sorted(places): ret += ' ' + '-'.join(places[place])] *)
Definition format_places (places : gmap Z (list string)) : string :=
  foldl (λ ret place, ret ++ " " ++ join "-" (default [] (places !! place)))
        EmptyString (sorted_places places).

(** [autoplace_riders(race, autospec, infocol, final)]: the guard
    afterwards and the place string returned. *)
Definition autoplace_riders (fuel : nat) (autospec : string) (final : bool)
    (ar : gset string) : option (gset string * string) :=
  match autoplace_groups fuel final (split_on ";" autospec) (ar, ∅) with
  | None => None
  | Some (ar', places) => Some (ar', format_places places)
  end.

End Resolver.

(** A nested call that hands the guard back as it got it. *)
Definition restores
    (rec : string → string → option nat → gset string
           → option (gset string * list starter)) (n : nat) : Prop :=
  ∀ ty auto ic ar, size ar = n → ∃ hst, rec ty auto ic ar = Some (ar, hst).

End Autospec.

(** ** The export pass: [menu_data_export_activate_cb], [__run_data_export] *)

Module ExportPass.
Import Dirty.

(** The part of the meet that the export request reads and writes.
    Worker threads are named by the order of their creation. *)
Record meet : Type := Meet {
  exporter : option nat;     (* self.exporter: handle of the export worker *)
  alive : gset nat;          (* the export workers whose run() has not ended *)
  exportlock : bool;         (* self.exportlock is held *)
  spawned : nat;             (* number of export workers created so far *)
}.

(** What a request did. *)
Inductive outcome : Type :=
  | LockBusy          (* acquire(False) failed: return None *)
  | InProgress        (* 'Export already in progress': return False *)
  | StaleRemoved      (* 'Stale exporter handle removed': return False *)
  | Started (t : nat) (* a worker was created and started *).

(** The state at start up: [self.exporter = None], the lock free. *)
Definition meet_init : meet :=
  {| exporter := None; alive := ∅; exportlock := false; spawned := 0 |}.

(** [menu_data_export_activate_cb], run as one step: the lock is taken
    without blocking at its head and released by [finally] at its end. *)
Definition menu_data_export_activate_cb (m : meet) : meet * outcome :=
  if exportlock m then (m, LockBusy)
  else
    match exporter m with
    | Some t =>
        if decide (t ∈ alive m) then (m, InProgress)
        else ({| exporter := None; alive := alive m;
                 exportlock := false; spawned := spawned m |}, StaleRemoved)
    | None =>
        let t := spawned m in
        ({| exporter := Some t; alive := {[t]} ∪ alive m;
            exportlock := false; spawned := S t |}, Started t)
    end.

(** The timer tick: 'Removing completed export'. *)
Definition poll_exporter (m : meet) : meet :=
  match exporter m with
  | Some t =>
      if decide (t ∈ alive m) then m
      else {| exporter := None; alive := alive m;
              exportlock := exportlock m; spawned := spawned m |}
  | None => m
  end.

(** The worker [t] reaches the end of [__run_data_export]. *)
Definition worker_exit (t : nat) (m : meet) : meet :=
  {| exporter := exporter m; alive := alive m ∖ {[t]};
     exportlock := exportlock m; spawned := spawned m |}.

(** The moves of the system: a request, a timer tick, a worker ending. *)
Inductive step : meet → meet → Prop :=
  | step_request m : step m (menu_data_export_activate_cb m).1
  | step_poll m : step m (poll_exporter m)
  | step_exit m t : t ∈ alive m → step m (worker_exit t m).

Definition reachable (m : meet) : Prop := rtc step meet_init m.

(** Every running worker is the one the handle names, and the lock is
    free between the moves. *)
Definition single_flight (m : meet) : Prop :=
  exportlock m = false ∧ ∀ t, t ∈ alive m → exporter m = Some t.

(** The state after the first request: worker 0 is running. *)
Definition meet_running : meet := (menu_data_export_activate_cb meet_init).1.

Section Pass.

(** The handler calls of the pass for one event ([mkrace], [loadconfig],
    [startlist_report]) complete without raising. *)
Variable handler_ok : string → event → bool.

(** [str(evno).translate(strops.WEBFILE_UTRANS)] *)
Variable webfile : string → string.

(** The first loop of [__run_data_export], over the event numbers of the
    directory: [dmap] collects, in order, the events for which
    [check_depends_dirty] returns true.  [dmap] holds the records of the
    directory themselves, so it is kept as the list of their numbers. *)
Fixpoint dirty_scan (evnos : list string) (edb : eventdb)
    (dmap : list string) : option (list string * eventdb) :=
  match evnos with
  | [] => Some (dmap, edb)
  | evno :: rest =>
      match check_depends_dirty edb evno with
      | None => None
      | Some (dirty, edb1) =>
          dirty_scan rest edb1 (if dirty then dmap ++ [evno] else dmap)%list
      end
  end.

(** The files written for an event flagged for result export. *)
Definition event_files (evno : string) : list string :=
  let basename := "event_" ++ webfile evno in
  [basename ++ ".html"; basename ++ ".json";
   basename ++ "_startlist.json"; basename ++ "_result.json"].

(** The second loop, [for evno, e in dmap.items()].  The result tells
    whether the loop ran to its end or an exception ended the pass, and
    gives the directory and the files written, each with its event.  An
    event of [dmap] is always in the directory; the first branch is there
    for totality. *)
Fixpoint export_events (dmap : list string) (edb : eventdb)
    (written : list (string * string))
  : bool * eventdb * list (string * string) :=
  match dmap with
  | [] => (true, edb, written)
  | evno :: rest =>
      match edb !! evno with
      | None => export_events rest edb written
      | Some e =>
          let doexport := ev_resu e in
          let edb1 := <[evno := set_dirty false e]> edb in (* e['dirty'] = False *)
          if handler_ok evno e then
            export_events rest edb1
              (if doexport
               then written ++ ((λ f, (evno, f)) <$> event_files evno)
               else written)%list
          else (false, edb1, written)
      end
  end.

(** [__run_data_export]: the events found dirty and the outcome of the
    second loop.  The link maps of [updatenexprev] and the mirror request
    that ends the pass do not touch the records and are left out. *)
Definition run_data_export (edb : eventdb)
  : option (list string * (bool * eventdb * list (string * string))) :=
  match dirty_scan (map_to_list edb).*1 edb [] with
  | None => None
  | Some (dmap, edb1) => Some (dmap, export_events dmap edb1 [])
  end.

End Pass.

End ExportPass.

(** ** Renumbering: [eventno_change] *)

Module Renumber.









Definition non_empty (s : string) : bool :=
  match s with EmptyString => false | _ => true end.




End Renumber.

(** ** Concrete collaborators and directories for the examples *)

Module Examples.
Import Autospec.

Definition digit_of (c : ascii) : option Z :=
  let n := nat_of_ascii c in
  if ((48 <=? n)%nat && (n <=? 57)%nat) then Some (Z.of_nat (n - 48)) else None.

Fixpoint parse_int_go (acc : Z) (s : string) : option Z :=
  match s with
  | EmptyString => Some acc
  | String c s' =>
      match digit_of c with
      | Some d => parse_int_go (10 * acc + d) s'
      | None => None
      end
  end.

(** The value of [strops.placeset] on a place-set that lists single
    ranks separated by white space. *)
Definition ex_placeset (s : string) : list Z :=
  omap (parse_int_go 0) (split_ws s).

(** Handlers whose finished events are those of [fin] and whose results
    are given by [results]. *)
Definition ex_collab (fin : gset string)
    (results : string → list starter → list row) : collab :=
  {| placeset := ex_placeset;
     h_seedsrc := λ _ _, None;
     h_finished := λ evno _ _, bool_decide (evno ∈ fin);
     h_standingstr := λ evno _ _,
       if bool_decide (evno ∈ fin) then "Result" else "Provisional Result";
     h_result_gen := λ evno _ hst, results evno hst |}.

Definition ex_event (type auto : string) : event :=
  {| ev_type := type; ev_refe := ""; ev_auto := auto; ev_depe := "";
     ev_resu := true; ev_dirty := false |}.

(** Source ranks {1:A, 2:B, 3:C}. *)
Definition abc_rows : list row :=
  [Row "A" (CInt 1) []; Row "B" (CInt 2) []; Row "C" (CInt 3) []].

(** A and B tied on rank 1, C on rank 2, D did not finish. *)
Definition tie_rows : list row :=
  [Row "A" (CInt 1) []; Row "B" (CInt 1) []; Row "C" (CInt 2) [];
   Row "D" (CStr "dnf") []].

Definition one_edb (type : string) : eventdb := {[ "1" := ex_event type "" ]}.

(** Handlers that all report the result [abc_rows]; the events of [fin]
    are finished. *)
Definition abc_collab (fin : gset string) : collab :=
  ex_collab fin (λ _ _, abc_rows).

(** Nine event numbers, none of them in the directories below. *)
Definition nine_guard : gset string :=
  list_to_set ["a1"; "a2"; "a3"; "a4"; "a5"; "a6"; "a7"; "a8"; "a9"].

(** A chain of [n] events: E1 is seeded from E2, E2 from E3, and so on;
    the last event has no autospec. *)
Definition chain_name (i : nat) : string := String "E" (pretty i).

Definition chain_dir (n : nat) : eventdb :=
  list_to_map
    ((λ i, (chain_name i,
            ex_event "scratch"
              (if decide (i < n) then chain_name (S i) ++ ":1" else "")))
       <$> seq 1 n).

(** The result of the event [base] is rider 7 in first place; the result
    of any other event ranks its starters in the order they were added. *)
Definition chain_results (base : string) (evno : string)
    (hst : list starter) : list row :=
  if String.eqb evno base then [Row "7" (CInt 1) []]
  else imap (λ i st, Row st.1 (CInt (Z.of_nat (S i))) []) hst.

Definition chain_collab (n : nat) : collab :=
  ex_collab (dom (chain_dir n)) (chain_results (chain_name n)).

(** Directories with cycles: A and B seed and depend on each other, S on
    itself; none is dirty. *)
Definition cyc_event (auto depe : string) : event :=
  {| ev_type := "scratch"; ev_refe := ""; ev_auto := auto; ev_depe := depe;
     ev_resu := true; ev_dirty := false |}.

Definition cyc_edb : eventdb :=
  <["A" := cyc_event "B:1" "B"]> (<["B" := cyc_event "A:1" "A"]>
    (<["S" := cyc_event "S:1 2" "S S"]> ∅)).


(** A directory for the export pass: E1 is dirty, E2 depends on E1 and
    is not flagged for result export, E3 stands alone. *)
Definition export_event (depe : string) (resu dirty : bool) : event :=
  {| ev_type := "scratch"; ev_refe := ""; ev_auto := ""; ev_depe := depe;
     ev_resu := resu; ev_dirty := dirty |}.

Definition export_edb : eventdb :=
  <["E1" := export_event "" true true]>
    (<["E2" := export_event "E1" false false]>
       (<["E3" := export_event "" true false]> ∅)).

(** A directory to renumber: event 2 is seeded from event 1, depends on
    it and refers to it. *)
Definition ren_edb : eventdb :=
  <["1" := {| ev_type := "scratch"; ev_refe := ""; ev_auto := "";
              ev_depe := ""; ev_resu := true; ev_dirty := false |}]>
    (<["2" := {| ev_type := "sprint round"; ev_refe := "1";
                 ev_auto := "3:1 2; 1 :1-4"; ev_depe := "3 1";
                 ev_resu := true; ev_dirty := false |}]> ∅).

(** An event that names two events that are not in the directory. *)
Definition orphan_edb : eventdb :=
  <["7" := export_event "98 99" true false]> ∅.

(** The state in which worker 0 has ended and the timer has not yet
    removed its handle. *)
Definition meet_ended : ExportPass.meet :=
  ExportPass.worker_exit 0 ExportPass.meet_running.

End Examples.

Definition mk_ev (depe : string) (dirty : bool) : event :=
  {| ev_type := "scratch"; ev_refe := ""; ev_auto := ""; ev_depe := depe;
     ev_resu := true; ev_dirty := dirty |}.

(** The chain of the specification: E3 depends on E2, E2 on E1, only E1 is
    marked dirty. *)
Definition chain_edb : eventdb :=
  <["E1" := mk_ev "" true]> (<["E2" := mk_ev "E1" false]>
    (<["E3" := mk_ev "E2" false]> ∅)).

(** ** Further parts of the meet *)

(** *** Communique numbers report after report *)

Module CommuniqueRun.
Import Communique.

(** Successive calls of [find_communique], one for each key of the list,
    as [eventdb_cb] makes them report after report: the values returned
    and the table after the last call. *)
Fixpoint find_communiques (keys : list string) (ca : commalloc)
  : option (list (option string) * commalloc) :=
  match keys with
  | [] => Some ([], ca)
  | k :: rest =>
      match find_communique ca k with
      | None => None
      | Some (r, ca1) =>
          match find_communiques rest ca1 with
          | None => None
          | Some (rs, ca2) => Some (r :: rs, ca2)
          end
      end
  end.

(** The numbers of the table are exactly 1 .. [i]. *)
Definition numbered_to (i : nat) (ca : commalloc) : Prop :=
  ∀ v, assigned ca v ↔ ∃ j : nat, (1 ≤ j)%nat ∧ (j ≤ i)%nat ∧ v = pretty j.

End CommuniqueRun.

Module AutospecRun.
Import Autospec.

(** The riders [r0] put before those of a state of the scan of the groups. *)
Definition add_riders (r0 : list starter)
    (st : gset string * list starter) : gset string * list starter :=
  (st.1, (r0 ++ st.2)%list).

End AutospecRun.

(** *** Queued exports: [delayed_export], [exportcb], [save_curevent] *)

Module Triggers.
Import Dirty ExportPass.

(** The state read and written by [delayed_export], [exportcb] and
    [save_curevent]. *)
Record app : Type := App {
  a_meet : meet;              (* the export worker and its handle *)
  a_edb : eventdb;            (* self.edb *)
  exportpending : bool;       (* self.exportpending *)
  idle : nat;                 (* calls of exportcb queued with GLib.idle_add *)
  curevent : option string;   (* number of the open event, when its window is open *)
}.

(** [delayed_export]: 'Queue an export on idle add'. *)
Definition delayed_export (s : app) : app :=
  {| a_meet := a_meet s; a_edb := a_edb s; exportpending := true;
     idle := S (idle s); curevent := curevent s |}.

(** [save_curevent], on the records: [self.curevent.event['dirt'] = True]
    (the configuration files it writes are not modelled). *)
Definition save_curevent (evno : string) (edb : eventdb) : eventdb :=
  mark_dirty evno edb.

(** [exportcb], one queued call of it. *)
Definition exportcb (s : app) : app :=
  if exportpending s then
    {| a_meet := (menu_data_export_activate_cb (a_meet s)).1;
       a_edb := match curevent s with
                | Some evno => save_curevent evno (a_edb s)
                | None => a_edb s
                end;
       exportpending := false;
       idle := pred (idle s);
       curevent := curevent s |}
  else                                        (* probably doubled up *)
    {| a_meet := a_meet s; a_edb := a_edb s; exportpending := false;
       idle := pred (idle s); curevent := curevent s |}.

(** A chain E3 -> E2 -> E1 of clean events, E1 open, an export queued. *)
Definition clean_chain : eventdb :=
  <["E1" := Examples.export_event "" true false]>
    (<["E2" := Examples.export_event "E1" true false]>
       (<["E3" := Examples.export_event "E2" true false]> ∅)).

Definition app_pending : app :=
  {| a_meet := meet_init; a_edb := clean_chain; exportpending := true;
     idle := 1; curevent := Some "E1" |}.

End Triggers.

(** *** The mirror thread: [mirror_start] and the timer *)

Module Mirror.

(** The part of the meet that [mirror_start] reads and writes. *)
Record mstate : Type := MState {
  mirrorpath : string;       (* self.mirrorpath *)
  mirror : option nat;       (* self.mirror: handle of the mirror thread *)
  m_alive : gset nat;        (* the mirror threads whose run() has not ended *)
  m_spawned : nat;           (* number of mirror threads created so far *)
}.

Definition mstate_init (path : string) : mstate :=
  {| mirrorpath := path; mirror := None; m_alive := ∅; m_spawned := 0 |}.

(** [mirror_start]: 'Create a new mirror thread unless in progress'. *)
Definition mirror_start (m : mstate) : mstate :=
  match mirrorpath m, mirror m with
  | String _ _, None =>
      let t := m_spawned m in
      {| mirrorpath := mirrorpath m; mirror := Some t;
         m_alive := {[t]} ∪ m_alive m; m_spawned := S t |}
  | _, _ => m
  end.

(** The timer tick: 'Removing completed mirror'. *)
Definition poll_mirror (m : mstate) : mstate :=
  match mirror m with
  | Some t =>
      if decide (t ∈ m_alive m) then m
      else {| mirrorpath := mirrorpath m; mirror := None;
              m_alive := m_alive m; m_spawned := m_spawned m |}
  | None => m
  end.

(** The mirror thread [t] ends. *)
Definition mirror_exit (t : nat) (m : mstate) : mstate :=
  {| mirrorpath := mirrorpath m; mirror := mirror m;
     m_alive := m_alive m ∖ {[t]}; m_spawned := m_spawned m |}.

Inductive mstep : mstate → mstate → Prop :=
  | mstep_start m : mstep m (mirror_start m)
  | mstep_poll m : mstep m (poll_mirror m)
  | mstep_exit m t : t ∈ m_alive m → mstep m (mirror_exit t m).

(** Every running mirror thread is the one the handle names. *)
Definition one_mirror (m : mstate) : Prop :=
  ∀ t, t ∈ m_alive m → mirror m = Some t.

End Mirror.

(** *** Race distances: [get_distance] *)

Module Distance.

(** The value given as [count]: an [int], a string, or [None]. *)
Inductive pyval : Type :=
  | PInt (n : Z)
  | PStr (s : string)
  | PNone.

Section GetDistance.

(** [int(s)] on a string: the integer it denotes, or nothing when the
    conversion raises [ValueError]. *)
Variable int_str : string → option Z.

Definition to_int (v : pyval) : option Z :=
  match v with
  | PInt n => Some n
  | PStr s => int_str s
  | PNone => None
  end.

(** [get_distance(count, units)] with the track length
    [tracklen_n / tracklen_d]: 'Convert race distance units to metres'.
    The exceptions of the body are caught by it and leave [ret] as it
    was. *)
Definition get_distance (tracklen_n tracklen_d : Z) (count : pyval)
    (units : string) : option Z :=
  match count with
  | PNone => None
  | _ =>
      if bool_decide (units ∈ ["metres"; "meters"]) then to_int count
      else if String.eqb units "laps" then
        match to_int count with
        | Some c =>
            let ret := (tracklen_n * c)%Z in
            Some (if negb (tracklen_d =? 1)%Z && (0 <? tracklen_d)%Z
                  then (ret / tracklen_d)%Z else ret)
        | None => None
        end
      else None
  end.

End GetDistance.

(** The check of the track length in [loadconfig]: an invalid length is
    replaced by 250/1. *)
Definition check_tracklen (tracklen_n tracklen_d : Z) : Z * Z :=
  if (0 <? tracklen_n)%Z && (tracklen_n <? 5500)%Z
     && (0 <? tracklen_d)%Z && (tracklen_d <? 10)%Z
  then (tracklen_n, tracklen_d)
  else (250%Z, 1%Z).

End Distance.

(** *** The backup number of [event_popup_edit_cb] *)

Module Backup.

(** [s.rsplit(sep, 1)[0]]: the text before the last [sep], the whole
    string when [sep] does not occur. *)
Fixpoint before_last (sep : ascii) (s : string) : option string :=
  match s with
  | EmptyString => None
  | String c rest =>
      match before_last sep rest with
      | Some h => Some (String c h)
      | None => if Ascii.eqb c sep then Some EmptyString else None
      end
  end.

Definition rsplit1_head (sep : ascii) (s : string) : string :=
  default s (before_last sep s).

(** ['%s.%d' % (baseno, count)] *)
Definition backup_name (baseno : string) (count : nat) : string :=
  baseno ++ "." ++ pretty count.

(** The [while tmpevno in self.edb] loop of [event_popup_edit_cb]. *)
Fixpoint backup_loop (fuel : nat) (edb : eventdb) (baseno : string)
    (count : nat) (tmpevno : string) : option string :=
  match fuel with
  | O => None
  | S fuel' =>
      if decide (is_Some (edb !! tmpevno)) then
        let count1 := S count in
        backup_loop fuel' edb baseno count1 (backup_name baseno count1)
      else Some tmpevno
  end.

(** The number an existing event [newevno] is moved to before another
    event takes its number. *)
Definition backup_evno (edb : eventdb) (newevno : string) : option string :=
  backup_loop (S (S (size edb))) edb (rsplit1_head "." newevno) 0 newevno.

End Backup.

(** *** Next and previous links: [updatenexprev] *)

Module Links.

(** A row of the event directory in its order, with the [index] flag
    that only the index uses. *)
Record index_row : Type := IndexRow {
  ix_evid : string;   (* eh['evid'] *)
  ix_ev : event;
  ix_inde : bool;     (* eh['index']: include in the index of events *)
}.

(** The number under which a row is published: its reference when it has
    one, else its own number unless it is a break or a session. *)
Definition referno_of (eh : index_row) : option string :=
  let referno :=
    if bool_decide (ev_type (ix_ev eh) ∈ ["break"; "session"]) then None
    else Some (ix_evid eh) in
  if Renumber.non_empty (ev_refe (ix_ev eh)) then Some (ev_refe (ix_ev eh))
  else referno.

Section UpdateNexPrev.

(** [str(evno).translate(strops.WEBFILE_UTRANS)] *)
Variable webfile : string → string.

Definition linkfile (referno : string) : string := "event_" ++ webfile referno.

(** The first loop of [updatenexprev]: the published numbers in order
    ([evidx]) and the file of each ([evlinks]). *)
Fixpoint index_scan (rows : list index_row) (evidx : list string)
    (evlinks : gmap string string) : list string * gmap string string :=
  match rows with
  | [] => (evidx, evlinks)
  | eh :: rest =>
      if ix_inde eh || ev_resu (ix_ev eh) then
        match referno_of eh with
        | Some referno =>
            if Renumber.non_empty referno then
              if decide (is_Some (evlinks !! referno)) then
                index_scan rest evidx evlinks
              else
                index_scan rest (evidx ++ [referno])%list
                  (<[referno := linkfile referno]> evlinks)
            else index_scan rest evidx evlinks
        | None => index_scan rest evidx evlinks
        end
      else index_scan rest evidx evlinks
  end.

(** The second loop: [nextlinks] and [prevlinks].  [evlinks[evno]] is
    defined for every number of [evidx]; a missing key would raise
    [KeyError] and is [None] here. *)
Fixpoint link_scan (evidx : list string) (prevno : option string)
    (evlinks nextlinks prevlinks : gmap string string)
    : option (gmap string string * gmap string string) :=
  match evidx with
  | [] => Some (nextlinks, prevlinks)
  | evno :: rest =>
      match prevno with
      | Some p =>
          match evlinks !! evno, evlinks !! p with
          | Some le, Some lp =>
              link_scan rest (Some evno) evlinks
                (<[p := le]> nextlinks) (<[evno := lp]> prevlinks)
          | _, _ => None
          end
      | None => link_scan rest (Some evno) evlinks nextlinks prevlinks
      end
  end.

Definition updatenexprev (rows : list index_row)
    : option (gmap string string * gmap string string) :=
  let '(evidx, evlinks) := index_scan rows [] ∅ in
  link_scan evidx None evlinks ∅ ∅.

(** The published numbers, as the first loop collects them. *)
Definition published (rows : list index_row) : list string :=
  (index_scan rows [] ∅).1.

(** What the first loop keeps: each number once, each with its file. *)
Definition links_ok (evidx : list string) (evlinks : gmap string string) : Prop :=
  NoDup evidx
  ∧ ∀ r, evlinks !! r = (if decide (r ∈ evidx) then Some (linkfile r) else None).

End UpdateNexPrev.

(** The row [eh] is published under the number [r]. *)
Definition listed (eh : index_row) (r : string) : Prop :=
  (ix_inde eh || ev_resu (ix_ev eh)) = true
  ∧ referno_of eh = Some r ∧ r ≠ "".

End Links.

(** * Properties *)

Example split_ws_ex : split_ws " 12  a3	x " = ["12"; "a3"; "x"].
Proof. reflexivity. Qed.

Example chain_run :
  match Dirty.check_depends_dirty chain_edb "E3" with
  | Some (r, edb') => (r, is_dirty edb' "E1", is_dirty edb' "E2", is_dirty edb' "E3")
  | None => (false, false, false, false)
  end = (true, true, true, true).
Proof. vm_compute. reflexivity. Qed.

Module DirtyFacts.
Import Dirty.

Lemma is_dirty_mark_same edb e :
  is_Some (edb !! e) → is_dirty (mark_dirty e edb) e = true.
Proof.
  intros [ev Hev]. unfold is_dirty, mark_dirty.
  by rewrite lookup_alter_eq, Hev.
Qed.

Lemma scan_depends_dirty rec e devs K edb :
  is_dirty edb e = true → scan_depends rec e devs K edb = Some (true, edb).
Proof. intros H. destruct devs; simpl; by rewrite H. Qed.

Lemma reach_av_rtc edb a b : reach_av edb ∅ a b ↔ rtc (dep_edge edb) a b.
Proof.
  split.
  - induction 1; [apply rtc_refl | by eapply rtc_l].
  - induction 1; [by apply reach_av_refl | eapply reach_av_step; eauto; set_solver].
Qed.

Lemma reach_av_split edb K x c d :
  reach_av edb K c d →
  reach_av edb ({[x]} ∪ K) c d ∨ reach_av edb K x d.
Proof.
  induction 1 as [a Ha | a b c Ha Hab Hbc IH].
  - destruct (decide (a = x)) as [->|Hne].
    + right. by apply reach_av_refl.
    + left. apply reach_av_refl. set_solver.
  - destruct (decide (a = x)) as [->|Hne].
    + right. eapply reach_av_step; eauto.
    + destruct IH as [IH|IH]; [left | by right].
      eapply reach_av_step; eauto. set_solver.
Qed.

Lemma reach_av_head edb S e c d :
  reach_av edb S c d →
  reach_av edb ({[e]} ∪ S) c d
  ∨ (∃ c', dep_edge edb e c' ∧ reach_av edb ({[e]} ∪ S) c' d)
  ∨ d = e.
Proof.
  induction 1 as [a Ha | a b c Ha Hab Hbc IH].
  - destruct (decide (a = e)) as [->|Hne]; [by right; right |].
    left. apply reach_av_refl. set_solver.
  - destruct IH as [IH|[IH|IH]]; [| by right; left | by right; right].
    destruct (decide (a = e)) as [->|Hne].
    + right; left. eauto.
    + left. eapply reach_av_step; eauto. set_solver.
Qed.

Lemma marks_refl edb : marks edb edb.
Proof. intros k. by left. Qed.

Lemma marks_mark edb edb1 e ev :
  edb !! e = Some ev → stale edb e → marks edb edb1 →
  marks edb (mark_dirty e edb1).
Proof.
  intros Hev Hst Hm k. unfold mark_dirty.
  destruct (decide (e = k)) as [<-|Hne].
  - right. exists ev. split; [done|]. split; [|done].
    rewrite lookup_alter_eq.
    destruct (Hm e) as [-> | (ev' & Hev' & -> & _)].
    + by rewrite Hev.
    + rewrite Hev in Hev'. by simplify_eq.
  - rewrite lookup_alter_ne by done. apply Hm.
Qed.

Lemma scan_depends_spec rec edb e ev :
  (∀ edb0 e0 S0 r, rec edb0 e0 S0 = Some r → post edb0 S0 e0 r) →
  edb !! e = Some ev →
  ∀ devs K r,
    (∀ d, d ∈ devs → dep_edge edb e d) →
    scan_depends rec e devs K edb = Some r →
    (r.1 = false → r.2 = edb ∧ is_dirty edb e = false ∧
       ∀ c d, c ∈ devs → reach_av edb K c d → is_dirty edb d = false)
    ∧ (r.1 = true → stale edb e ∧ is_dirty r.2 e = true ∧ marks edb r.2).
Proof.
  intros Hrec Hev. induction devs as [|dev devs IH]; intros K r Hdevs Hrun.
  - simpl in Hrun. simplify_eq. simpl. split.
    + intros Hd. repeat split; [done|]. intros c d Hc. by apply elem_of_nil in Hc.
    + intros Hd. repeat split; [|done|apply marks_refl].
      exists e. split; [apply rtc_refl | done].
  - simpl in Hrun. destruct (is_dirty edb e) eqn:Hde.
    { simplify_eq. simpl. split; [done|]. intros _.
      repeat split; [|done|apply marks_refl].
      exists e. split; [apply rtc_refl | done]. }
    destruct (decide (dev ∈ K)) as [Hin|Hnin].
    { apply IH in Hrun; [| intros d Hd; apply Hdevs; by right].
      destruct Hrun as [Hf Ht]. split; [|done].
      intros Hr. destruct (Hf Hr) as (? & ? & Hclean). repeat split; [done..|].
      intros c d Hc Hreach. apply elem_of_cons in Hc as [->|Hc].
      - inversion Hreach; simplify_eq; done.
      - by eapply Hclean. }
    destruct (rec edb dev K) as [[dep edb1]|] eqn:Hcall; [|done].
    apply Hrec in Hcall. destruct Hcall as [Hcf Hct]. simpl in *.
    destruct dep.
    + destruct (Hct eq_refl) as (Hst & Hd1 & Hm).
      assert (stale edb e) as Hste.
      { destruct Hst as (d & Hreach & Hd). exists d. split; [|done].
        eapply rtc_l; [|done]. apply Hdevs. by left. }
      rewrite scan_depends_dirty in Hrun
        by (apply is_dirty_mark_same; destruct (Hm e) as [->|(?&?&->&?)]; eauto).
      simplify_eq. simpl. split; [done|]. intros _.
      repeat split; [done| |by eapply marks_mark].
      apply is_dirty_mark_same. destruct (Hm e) as [->|(?&?&->&?)]; eauto.
    + destruct (Hcf eq_refl) as [-> Hclean1].
      apply IH in Hrun; [| intros d Hd; apply Hdevs; by right].
      destruct Hrun as [Hf Ht]. split; [|done].
      intros Hr. destruct (Hf Hr) as (? & ? & Hclean). repeat split; [done..|].
      intros c d Hc Hreach.
      destruct (reach_av_split _ _ dev _ _ Hreach) as [H1|H1].
      * apply elem_of_cons in Hc as [->|Hc].
        { inversion H1; simplify_eq; set_solver. }
        by eapply Hclean.
      * by apply Hclean1.
Qed.

Lemma check_rec_spec fuel :
  ∀ edb e S r, check_rec fuel edb e S = Some r → post edb S e r.
Proof.
  induction fuel as [|fuel IH]; intros edb e S r Hrun; [done|].
  simpl in Hrun. destruct (edb !! e) as [ev|] eqn:Hev.
  - eapply scan_depends_spec in Hrun; [|done..|by intros d Hd; exists ev].
    destruct Hrun as [Hf Ht]. split; [|done].
    intros Hr. destruct (Hf Hr) as (? & Hde & Hclean). split; [done|].
    intros d Hreach.
    destruct (reach_av_head _ _ e _ _ Hreach) as [H1|[(c & Hc & H1)| ->]].
    + inversion H1; simplify_eq; set_solver.
    + destruct Hc as (ev' & Hev' & Hc). simplify_eq. by eapply Hclean.
    + done.
  - simplify_eq. split; [|done]. intros _. split; [done|].
    intros d Hreach. inversion Hreach as [|? b ? ? (ev & Hev' & _)]; simplify_eq.
    unfold is_dirty. by rewrite Hev.
Qed.

Lemma marks_dom edb edb' : marks edb edb' → dom edb' = dom edb.
Proof.
  intros Hm. apply set_eq. intros k. rewrite !elem_of_dom.
  destruct (Hm k) as [->|(ev & -> & -> & _)]; [done|].
  split; eauto.
Qed.

Lemma check_rec_dom fuel edb e S r :
  check_rec fuel edb e S = Some r → dom r.2 = dom edb.
Proof.
  intros Hrun. apply check_rec_spec in Hrun as [Hf Ht].
  destruct r as [[] edb']; simpl in *.
  - apply marks_dom. by apply Ht.
  - by destruct (Hf eq_refl) as [-> _].
Qed.

(** The budget: an event outside [S] needs more fuel than there are events
    outside [S]. *)
Lemma check_rec_total fuel :
  ∀ edb e S, e ∉ S → size (dom edb ∖ S) < fuel →
    is_Some (check_rec fuel edb e S).
Proof.
  induction fuel as [|fuel IH]; intros edb e S He Hsz; [lia|].
  simpl. destruct (edb !! e) as [ev|] eqn:Hev; [|by eexists].
  assert (∀ devs K edb1, dom edb1 = dom edb → {[e]} ∪ S ⊆ K →
            is_Some (scan_depends (check_rec fuel) e devs K edb1)) as Hloop.
  { induction devs as [|dev devs IHd]; intros K edb1 Hdom HK; simpl;
      [by eexists|].
    destruct (is_dirty edb1 e); [by eexists|].
    destruct (decide (dev ∈ K)) as [Hin|Hnin]; [by apply IHd|].
    destruct (IH edb1 dev K Hnin) as [[dep edb2] Hcall].
    { rewrite Hdom.
      assert (dom edb ∖ K ⊂ dom edb ∖ S) as Hsub.
      { split; [set_solver|]. intros Hc.
        assert (e ∈ dom edb ∖ K) as Hin'.
        { apply Hc. apply elem_of_difference. split; [|done].
          apply elem_of_dom. eauto. }
        set_solver. }
      apply subset_size in Hsub. lia. }
    rewrite Hcall. apply check_rec_dom in Hcall. simpl in Hcall.
    apply IHd; [|set_solver].
    destruct dep; [|congruence].
    unfold mark_dirty. rewrite dom_alter_L. congruence. }
  apply Hloop; [done|set_solver].
Qed.

Lemma check_depends_dirty_total edb e :
  is_Some (check_depends_dirty edb e).
Proof.
  apply check_rec_total; [set_solver|].
  rewrite difference_empty_L, size_dom. lia.
Qed.

Lemma stale_reach_av edb e : stale edb e ↔ ∃ d, reach_av edb ∅ e d ∧ is_dirty edb d = true.
Proof. unfold stale. by setoid_rewrite reach_av_rtc. Qed.


(** What a top level call returns and does. *)
Lemma check_depends_dirty_outcome edb e b edb' :
  check_depends_dirty edb e = Some (b, edb') →
  (b = true ↔ stale edb e) ∧ is_dirty edb' e = b ∧ marks edb edb'.
Proof.
  intros Hrun. apply check_rec_spec in Hrun as [Hf Ht]. simpl in *.
  destruct b.
  - destruct (Ht eq_refl) as (? & ? & ?). naive_solver.
  - destruct (Hf eq_refl) as [-> Hclean]. repeat split.
    + done.
    + intros (d & Hd & Hdd)%stale_reach_av. by rewrite Hclean in Hdd.
    + apply Hclean. apply reach_av_refl. set_solver.
    + apply marks_refl.
Qed.

Lemma dep_edge_marks edb edb' a b :
  marks edb edb' → dep_edge edb' a b ↔ dep_edge edb a b.
Proof.
  intros Hm. unfold dep_edge.
  destruct (Hm a) as [->|(ev & -> & -> & _)]; [done|].
  split; intros (ev' & Hev' & Hb); simplify_eq; eauto.
Qed.

Lemma rtc_dep_edge_marks edb edb' a b :
  marks edb edb' → rtc (dep_edge edb') a b ↔ rtc (dep_edge edb) a b.
Proof.
  intros Hm. split.
  - induction 1 as [|x y z Hxy _ IH]; [apply rtc_refl|].
    eapply rtc_l; [|exact IH]. by apply (dep_edge_marks _ _ _ _ Hm).
  - induction 1 as [|x y z Hxy _ IH]; [apply rtc_refl|].
    eapply rtc_l; [|exact IH]. by apply (dep_edge_marks _ _ _ _ Hm).
Qed.

Lemma stale_rtc edb e d : rtc (dep_edge edb) e d → stale edb d → stale edb e.
Proof.
  intros Hed (d' & Hdd' & Hd'). exists d'. split; [|done]. by etrans.
Qed.

Lemma is_dirty_marks edb edb' d :
  marks edb edb' → is_dirty edb' d = true → stale edb d.
Proof.
  intros Hm. unfold is_dirty.
  destruct (Hm d) as [->|(ev & Hev & -> & Hst)]; [|done].
  intros Hd. exists d. split; [apply rtc_refl|done].
Qed.

Lemma is_dirty_marks_mono edb edb' d :
  marks edb edb' → is_dirty edb d = true → is_dirty edb' d = true.
Proof.
  intros Hm. unfold is_dirty.
  destruct (Hm d) as [->|(ev & -> & -> & _)]; done.
Qed.

Lemma stale_marks edb edb' e :
  marks edb edb' → stale edb' e ↔ stale edb e.
Proof.
  intros Hm. split; intros (d & Hed & Hd).
  - apply (rtc_dep_edge_marks _ _ _ _ Hm) in Hed.
    eapply stale_rtc; [done|]. by eapply is_dirty_marks.
  - exists d. split; [by apply (rtc_dep_edge_marks _ _ _ _ Hm)|].
    by eapply is_dirty_marks_mono.
Qed.

Lemma marks_trans edb1 edb2 edb3 :
  marks edb1 edb2 → marks edb2 edb3 → marks edb1 edb3.
Proof.
  intros H12 H23 k.
  destruct (H23 k) as [->|(ev & Hev & -> & Hst)]; [apply H12|].
  right. apply (stale_marks _ _ _ H12) in Hst.
  destruct (H12 k) as [Heq|(ev0 & Hev0 & Hev2 & _)].
  - exists ev. by rewrite <-Heq.
  - exists ev0. rewrite Hev in Hev2. by simplify_eq.
Qed.


Lemma stale_in_dom edb e : stale edb e → is_Some (edb !! e).
Proof.
  intros (d & Hed & Hd).
  inversion Hed as [|? y ? (ev & Hev & _) _]; simplify_eq; [|eauto].
  unfold is_dirty in Hd. destruct (edb !! d); [eauto|done].
Qed.





(** C1. [check_depends_dirty(e)] always returns; it returns true exactly
    when [e]'s own dirty flag is set or an event named transitively in its
    depend list is dirty; the value returned is [e]'s flag after the call,
    so a dependency found dirty leaves [e] marked; the call changes nothing
    but dirty flags of stale events, which it sets.  On the chain E3 -> E2
    -> E1 with only E1 dirty, the call for E3 returns true and leaves E2
    and E3 dirty. *)
Theorem check_depends_dirty_propagates :
  (∀ (edb : eventdb) (e : string),
     ∃ b edb', check_depends_dirty edb e = Some (b, edb')
       ∧ (b = true ↔ stale edb e)
       ∧ is_dirty edb' e = b
       ∧ marks edb edb')
  ∧ (is_dirty chain_edb "E1" = true
     ∧ is_dirty chain_edb "E2" = false
     ∧ is_dirty chain_edb "E3" = false
     ∧ dep_edge chain_edb "E3" "E2" ∧ dep_edge chain_edb "E2" "E1"
     ∧ ∃ edb', check_depends_dirty chain_edb "E3" = Some (true, edb')
         ∧ is_dirty edb' "E2" = true ∧ is_dirty edb' "E3" = true).
Proof.
  split.
  - intros edb e.
    destruct (check_depends_dirty_total edb e) as [[b edb'] Hrun].
    exists b, edb'. split; [done|]. by apply check_depends_dirty_outcome.
  - repeat split; try (vm_compute; reflexivity).
    + eexists. split; [by vm_compute|]. vm_compute. by left.
    + eexists. split; [by vm_compute|]. vm_compute. by left.
    + eexists. split; [vm_compute; reflexivity|]. split; vm_compute; reflexivity.
Qed.

End DirtyFacts.

Module CommuniqueFacts.
Import Communique.

Lemma scan_alloc_found k v l ns :
  NoDup l.*1 → (k, v) ∈ l → (scan_alloc k l ns).1 = Some v.
Proof.
  revert ns. induction l as [|[c w] l IH]; intros ns Hnd Hin; simpl.
  - by apply elem_of_nil in Hin.
  - apply NoDup_cons in Hnd as [Hc Hnd]. simpl in *.
    destruct (decide (c = k)) as [->|Hne]; simpl.
    + apply elem_of_cons in Hin as [?|Hin]; [by simplify_eq|].
      destruct Hc. apply list_elem_of_fmap. by exists (k, v).
    + apply elem_of_cons in Hin as [?|Hin]; [by simplify_eq|]. by apply IH.
Qed.

Lemma scan_alloc_missing k l ns :
  k ∉ l.*1 → scan_alloc k l ns = (None, list_to_set l.*2 ∪ ns).
Proof.
  revert ns. induction l as [|[c w] l IH]; intros ns Hk; simpl.
  - f_equal. set_solver.
  - simpl in Hk. apply not_elem_of_cons in Hk as [Hne Hk].
    destruct (decide (c = k)); [done|]. rewrite IH by done.
    f_equal. set_solver.
Qed.

Lemma scan_alloc_map_Some (ca : commalloc) k v :
  ca !! k = Some v → (scan_alloc k (map_to_list ca) ∅).1 = Some v.
Proof.
  intros Hk. apply scan_alloc_found; [apply NoDup_fst_map_to_list|].
  by apply elem_of_map_to_list.
Qed.

Lemma scan_alloc_map_None (ca : commalloc) k :
  ca !! k = None →
  ∃ noset, scan_alloc k (map_to_list ca) ∅ = (None, noset)
           ∧ ∀ v, v ∈ noset ↔ assigned ca v.
Proof.
  intros Hk. eexists. split.
  - apply scan_alloc_missing. intros ([k' v] & -> & Hin)%list_elem_of_fmap.
    apply elem_of_map_to_list in Hin. simpl in *. congruence.
  - intros v. rewrite elem_of_union, elem_of_list_to_set, list_elem_of_fmap.
    unfold assigned. split.
    + intros [([k' v'] & -> & Hin)|?]; [|set_solver].
      apply elem_of_map_to_list in Hin. eauto.
    + intros [k' Hk']. left. exists (k', v). split; [done|].
      by apply elem_of_map_to_list.
Qed.

(** The second loop always ends within the budget, and what it returns. *)
Lemma alloc_loop_spec noset fuel :
  ∀ cnt, (1 ≤ cnt)%N ∧ (cnt ≤ MAXREP)%N → (MAXREP < cnt + N.of_nat fuel)%N →
    ∃ n, ((cnt ≤ n)%N ∧ (n ≤ MAXREP)%N)
       ∧ (∀ m, (cnt ≤ m)%N → (m < n)%N → pretty m ∈ noset)
       ∧ (((pretty n ∉ noset) ∧ alloc_loop fuel cnt noset = Some (pretty n, true))
          ∨ (n = MAXREP ∧ pretty n ∈ noset
             ∧ alloc_loop fuel cnt noset = Some (pretty n, false))).
Proof.
  induction fuel as [|fuel IH]; intros cnt Hc Hf; [lia|]. simpl.
  destruct (decide (pretty cnt ∉ noset)) as [Hfree|Hused].
  - exists cnt. split; [lia|]. split; [intros; lia|]. by left.
  - apply dec_stable in Hused.
    destruct (MAXREP <? cnt + 1)%N eqn:Hlt.
    + apply N.ltb_lt in Hlt. assert (cnt = MAXREP) as -> by lia.
      exists MAXREP. split; [lia|]. split; [intros; lia|]. by right.
    + apply N.ltb_ge in Hlt.
      destruct (IH (cnt + 1)%N) as (n & Hn & Hbelow & Hres); [lia..|].
      exists n. split; [lia|]. split; [|done].
      intros m Hm1 Hm2. destruct (decide (m = cnt)) as [->|]; [done|].
      apply Hbelow; lia.
Qed.

(** What the call does for a key without a number, in both outcomes. *)
Lemma find_communique_new (ca : commalloc) k :
  ca !! k = None →
  ∃ n, ((1 ≤ n)%N ∧ (n ≤ MAXREP)%N)
     ∧ (∀ m, (1 ≤ m)%N → (m < n)%N → assigned ca (pretty m))
     ∧ ((¬ assigned ca (pretty n)
         ∧ find_communique ca k
           = Some (Some (pretty n), <[k := pretty n]> ca))
        ∨ (n = MAXREP ∧ assigned ca (pretty n)
           ∧ find_communique ca k = Some (Some (pretty n), ca))).
Proof.
  intros Hk. unfold find_communique.
  destruct (scan_alloc_map_None ca k Hk) as (noset & -> & Hns).
  destruct (alloc_loop_spec noset (N.to_nat MAXREP) 1%N)
    as (n & Hn & Hbelow & Hres); [unfold MAXREP; lia..|].
  exists n. split; [done|]. split.
  - intros m Hm1 Hm2. apply Hns. by apply Hbelow.
  - destruct Hres as [[Hfree ->]|(-> & Hused & ->)].
    + left. by rewrite <-Hns.
    + right. by rewrite <-Hns.
Qed.

Lemma find_communique_known (ca : commalloc) k v :
  ca !! k = Some v → find_communique ca k = Some (Some v, ca).
Proof.
  intros Hk. unfold find_communique.
  pose proof (scan_alloc_map_Some ca k v Hk) as Hs.
  destruct (scan_alloc k (map_to_list ca) ∅) as [[w|] ns]; simpl in Hs;
    by simplify_eq.
Qed.

Lemma full_alloc_keys_NoDup :
  NoDup (full_entry <$> seq 1 (N.to_nat MAXREP)).*1.
Proof.
  rewrite <-list_fmap_compose. apply NoDup_fmap_2; [|apply NoDup_seq].
  intros a b Hab. unfold full_entry in Hab. simpl in Hab.
  injection Hab as Hab. by apply (inj pretty) in Hab.
Qed.

Lemma full_alloc_lookup (m : N) :
  (1 ≤ m)%N → (m ≤ MAXREP)%N →
  full_alloc !! String "k" (pretty m) = Some (pretty m).
Proof.
  intros H1 H2. apply elem_of_list_to_map_1; [apply full_alloc_keys_NoDup|].
  apply list_elem_of_fmap. exists (N.to_nat m). split.
  - unfold full_entry. unfold pretty at 3 4, pretty_nat.
    by rewrite N2Nat.id.
  - apply elem_of_seq. lia.
Qed.

Lemma full_alloc_assigned (m : N) :
  (1 ≤ m)%N → (m ≤ MAXREP)%N → assigned full_alloc (pretty m).
Proof. intros. eexists. by apply full_alloc_lookup. Qed.

Lemma full_alloc_fresh_key c k :
  c ≠ "k"%char → full_alloc !! String c k = None.
Proof.
  intros Hc. apply not_elem_of_list_to_map_1.
  rewrite <-list_fmap_compose.
  intros (n & Heq & _)%list_elem_of_fmap. simpl in Heq. congruence.
Qed.

(** When every number up to the ceiling is taken, the call for a new key
    hands back [str(MAXREP)] and leaves the dictionary as it was. *)
Lemma find_communique_full (ca : commalloc) k :
  ca !! k = None →
  (∀ m, (1 ≤ m)%N → (m ≤ MAXREP)%N → assigned ca (pretty m)) →
  find_communique ca k = Some (Some (pretty MAXREP), ca).
Proof.
  intros Hk Hfull.
  destruct (find_communique_new ca k Hk)
    as (n & Hn & _ & [[Hfree _]|(-> & _ & Hres)]); [|done].
  destruct Hfree. apply Hfull; lia.
Qed.

Lemma pretty_MAXREP : pretty MAXREP = "10000".
Proof. vm_compute. reflexivity. Qed.

Lemma small_alloc_free_2 : ¬ assigned small_alloc (pretty 2%N).
Proof.
  intros [k Hk]. unfold small_alloc in Hk.
  apply lookup_insert_Some in Hk as [[_ Hk]|[_ Hk]]; [discriminate Hk|].
  apply lookup_insert_Some in Hk as [[_ Hk]|[_ Hk]]; [discriminate Hk|].
  by rewrite lookup_empty in Hk.
Qed.

(** C5, amended.  A key that already holds a number gets that number back
    and the dictionary is unchanged.  For a key without a number, if some
    number between 1 and [MAXREP] is not assigned, the call assigns the
    first such number [n] (as the string [str(n)]) to the key, every smaller
    number being assigned to another key, records it in the dictionary and
    returns it; a second call with the same key returns the same number and
    changes nothing. *)
Theorem find_communique_idempotent (ca : commalloc) (k : string) :
  (∀ v, ca !! k = Some v → find_communique ca k = Some (Some v, ca))
  ∧ (ca !! k = None →
     (∃ m, (1 ≤ m)%N ∧ (m ≤ MAXREP)%N ∧ ¬ assigned ca (pretty m)) →
     ∃ n, (1 ≤ n)%N ∧ (n ≤ MAXREP)%N
        ∧ ¬ assigned ca (pretty n)
        ∧ (∀ m, (1 ≤ m)%N → (m < n)%N → assigned ca (pretty m))
        ∧ find_communique ca k = Some (Some (pretty n), <[k := pretty n]> ca)
        ∧ find_communique (<[k := pretty n]> ca) k
          = Some (Some (pretty n), <[k := pretty n]> ca)).
Proof.
  split; [apply find_communique_known|].
  intros Hk (m & Hm1 & Hm2 & Hm).
  destruct (find_communique_new ca k Hk) as (n & Hn & Hbelow & Hres).
  destruct Hres as [[Hfree Hres]|(-> & Hused & _)].
  - exists n. repeat split; try done; try lia.
    apply find_communique_known. by rewrite lookup_insert_eq.
  - destruct Hm. destruct (decide (m = MAXREP)) as [->|]; [done|].
    apply Hbelow; lia.
Qed.

Lemma find_communique_idempotent_witness :
  small_alloc !! "program1, 2" = None
  ∧ ∃ n, (1 ≤ n)%N ∧ (n ≤ MAXREP)%N
      ∧ ¬ assigned small_alloc (pretty n)
      ∧ (∀ m, (1 ≤ m)%N → (m < n)%N → assigned small_alloc (pretty m))
      ∧ find_communique small_alloc "program1, 2"
        = Some (Some (pretty n), <["program1, 2" := pretty n]> small_alloc)
      ∧ find_communique (<["program1, 2" := pretty n]> small_alloc) "program1, 2"
        = Some (Some (pretty n), <["program1, 2" := pretty n]> small_alloc).
Proof.
  split; [reflexivity|].
  apply (find_communique_idempotent small_alloc "program1, 2"); [reflexivity|].
  exists 2%N. split; [lia|]. split; [unfold MAXREP; lia|].
  exact small_alloc_free_2.
Defined.

(** C5 as stated fails at the ceiling: with every number from 1 to 10000
    held by another key, the call for a new key records nothing and returns
    "10000", the number of the key "k10000". *)
Lemma find_communique_ceiling_counterexample :
  full_alloc !! "result1, 2" = None
  ∧ full_alloc !! "k10000" = Some "10000"
  ∧ find_communique full_alloc "result1, 2" = Some (Some "10000", full_alloc)
  ∧ ¬ (∀ (ca : commalloc) k, ca !! k = None →
         ∃ v, find_communique ca k = Some (Some v, <[k := v]> ca)
              ∧ ¬ assigned ca v).
Proof.
  assert (full_alloc !! "result1, 2" = None) as Hnew.
  { apply full_alloc_fresh_key. discriminate. }
  assert (full_alloc !! "k10000" = Some "10000") as Hold.
  { rewrite <-pretty_MAXREP. apply full_alloc_lookup; unfold MAXREP; lia. }
  assert (find_communique full_alloc "result1, 2"
          = Some (Some "10000", full_alloc)) as Hrun.
  { rewrite <-pretty_MAXREP. apply find_communique_full; [exact Hnew|].
    apply full_alloc_assigned. }
  split; [exact Hnew|]. split; [exact Hold|]. split; [exact Hrun|].
  intros Hclaim.
  destruct (Hclaim full_alloc "result1, 2" Hnew) as (v & Hv & Hfree).
  rewrite Hrun in Hv.
  apply (f_equal (λ r : option (option string * commalloc),
                    match r with Some (Some x, _) => x | _ => "" end)) in Hv.
  cbv beta iota in Hv. subst v.
  apply Hfree. exists "k10000". exact Hold.
Qed.

(** C6: what the code does when every number from 1 to [MAXREP] is held by
    another key.  The call for a new key returns the string "10000", which
    is assigned to another key, not Python's [None]; the dictionary is left
    as it was. *)
Theorem find_communique_exhausted (ca : commalloc) (k : string) :
  ca !! k = None →
  (∀ m, (1 ≤ m)%N → (m ≤ MAXREP)%N → assigned ca (pretty m)) →
  find_communique ca k = Some (Some "10000", ca)
  ∧ assigned ca "10000"
  ∧ find_communique ca k ≠ Some (None, ca).
Proof.
  intros Hk Hfull. rewrite <-pretty_MAXREP.
  rewrite (find_communique_full ca k Hk Hfull).
  split; [reflexivity|]. split; [|discriminate].
  apply Hfull; unfold MAXREP; lia.
Qed.

Lemma find_communique_exhausted_witness :
  find_communique full_alloc "startlist7" = Some (Some "10000", full_alloc)
  ∧ assigned full_alloc "10000"
  ∧ find_communique full_alloc "startlist7" ≠ Some (None, full_alloc).
Proof.
  apply (find_communique_exhausted full_alloc "startlist7").
  - apply full_alloc_fresh_key. discriminate.
  - exact full_alloc_assigned.
Defined.

End CommuniqueFacts.

Module AutospecFacts.
Import Autospec.

Section ResolverFacts.

Variable X : collab.
Variable edb : eventdb.

Lemma guard_add_size (evno : string) (ar : gset string) :
  evno ∉ ar → size ({[evno]} ∪ ar) = S (size ar).
Proof.
  intros Hnin. rewrite size_union by set_solver. by rewrite size_singleton.
Qed.

Lemma guard_add_remove (evno : string) (ar : gset string) :
  evno ∉ ar → ({[evno]} ∪ ar) ∖ {[evno]} = ar.
Proof. set_solver. Qed.

Lemma autostart_group_restores rec ty ic egroup ar riders :
  restores rec (S (size ar)) →
  ∃ riders', autostart_group X edb rec ty ic egroup (ar, riders)
             = Some (ar, riders').
Proof.
  intros Hrec. unfold autostart_group.
  destruct (split_on ":" egroup) as [|a [|b [|c l]]]; try by eexists.
  simpl. destruct (edb !! strip a) as [e|]; [|by eexists].
  destruct (decide (strip a ∈ ar)) as [Hin|Hnin]; [by eexists|].
  unfold load_handler.
  destruct (Hrec (ev_type e) (ev_auto e) (h_seedsrc X (strip a) e)
              ({[strip a]} ∪ ar)) as [hst ->]; [by apply guard_add_size|].
  rewrite guard_add_remove by done. by eexists.
Qed.

Lemma autostart_groups_restores rec ty ic egroups ar riders :
  restores rec (S (size ar)) →
  ∃ riders', autostart_groups X edb rec ty ic egroups (ar, riders)
             = Some (ar, riders').
Proof.
  intros Hrec. revert riders.
  induction egroups as [|g gs IH]; intros riders; simpl; [by eexists|].
  destruct (autostart_group_restores rec ty ic g ar riders Hrec) as [r1 ->].
  apply IH.
Qed.

(** Resolution always returns within a budget of [MAX_AUTORECURSE + 2]
    nested calls less the size of the guard, whatever the autospecs of the
    directory, and leaves the guard as it found it. *)
Lemma autostart_riders_total (fuel : nat) :
  ∀ ty auto ic final (ar : gset string),
    (1 ≤ fuel)%nat → (MAX_AUTORECURSE + 2 ≤ fuel + size ar)%nat →
    ∃ riders, autostart_riders X edb fuel ty auto ic final ar
              = Some (ar, riders).
Proof.
  induction fuel as [|fuel IH]; intros ty auto ic final ar H1 Hf; [lia|].
  simpl. destruct (decide (MAX_AUTORECURSE < size ar)); [by eexists|].
  apply autostart_groups_restores.
  intros ty' auto' ic' ar' Hsz. apply IH; unfold MAX_AUTORECURSE in *; lia.
Qed.






Lemma flat_map_ext_in {A B} (f g : A → list B) (l : list A) :
  (∀ a, a ∈ l → f a = g a) → flat_map f l = flat_map g l.
Proof.
  induction l as [|a l IH]; intros Hfg; simpl; [done|].
  rewrite Hfg by (by left). rewrite IH; [done|].
  intros a' Ha'. apply Hfg. by right.
Qed.

Lemma load_places_lookup ps ic rows :
  ∀ (m : gmap Z (list starter)) p,
    default [] (load_places ps ic rows m !! p)
    = (default [] (m !! p)
       ++ (if decide (p ∈ ps) then ranked_at ic p rows else []))%list.
Proof.
  unfold ranked_at.
  induction rows as [|ri rows IH]; intros m p; simpl.
  { destruct (decide (p ∈ ps)); by rewrite app_nil_r. }
  destruct (r_rank ri) as [rank| |] eqn:Hrank;
    [| rewrite IH, filter_cons_False by congruence; done..].
  destruct (decide (rank ∈ ps)) as [Hin|Hnin].
  - rewrite IH. destruct (decide (p = rank)) as [->|Hne].
    + rewrite lookup_insert_eq, filter_cons_True by done. simpl.
      destruct (decide (rank ∈ ps)); [|done]. by rewrite <-app_assoc.
    + rewrite lookup_insert_ne by done.
      rewrite filter_cons_False by congruence. done.
  - rewrite IH. destruct (decide (p = rank)) as [->|Hne].
    + by destruct (decide (rank ∈ ps)).
    + rewrite filter_cons_False by congruence. done.
Qed.

Lemma load_ranks_lookup ps rows :
  ∀ (m : gmap Z (list string)) p,
    default [] (load_ranks ps rows m !! p)
    = (default [] (m !! p)
       ++ (if decide (p ∈ ps) then riders_at p rows else []))%list.
Proof.
  unfold riders_at.
  induction rows as [|ri rows IH]; intros m p; simpl.
  { destruct (decide (p ∈ ps)); by rewrite app_nil_r. }
  destruct (r_rank ri) as [rank| |] eqn:Hrank;
    [| rewrite IH, filter_cons_False by congruence; done..].
  destruct (decide (rank ∈ ps)) as [Hin|Hnin].
  - rewrite IH. destruct (decide (p = rank)) as [->|Hne].
    + rewrite lookup_insert_eq, filter_cons_True by done. simpl.
      destruct (decide (rank ∈ ps)); [|done]. by rewrite <-app_assoc.
    + rewrite lookup_insert_ne by done.
      rewrite filter_cons_False by congruence. done.
  - rewrite IH. destruct (decide (p = rank)) as [->|Hne].
    + by destruct (decide (rank ∈ ps)).
    + rewrite filter_cons_False by congruence. done.
Qed.

(** The riders of a group leave in the order of the place-set as
    written, each rank with its riders in the order of the result. *)
Lemma emit_load_places ps ic rows :
  emit_places ps (load_places ps ic rows ∅)
  = flat_map (λ p, ranked_at ic p rows) ps.
Proof.
  unfold emit_places. apply flat_map_ext_in. intros p Hp.
  rewrite load_places_lookup, lookup_empty. simpl.
  by rewrite decide_True by done.
Qed.

Lemma emit_empty ps : emit_places ps ∅ = [].
Proof.
  unfold emit_places. induction ps as [|p ps IH]; simpl; [done|].
  by rewrite lookup_empty, IH.
Qed.

Lemma sorted_places_spec (places : gmap Z (list string)) :
  StronglySorted Z.le (sorted_places places)
  ∧ NoDup (sorted_places places)
  ∧ ∀ p, p ∈ sorted_places places ↔ is_Some (places !! p).
Proof.
  unfold sorted_places. split; [|split].
  - apply (StronglySorted_merge_sort Z.le).
  - rewrite merge_sort_Permutation. apply NoDup_elements.
  - intros p. rewrite merge_sort_Permutation, elem_of_elements.
    apply elem_of_dom.
Qed.

(** A group whose source is ready: the calls appended are those of the
    place-set as written. *)
Lemma autostart_group_ready rec ty ic egroup a b e ar riders ar2 hst :
  split_on ":" egroup = [a; b] →
  edb !! strip a = Some e →
  strip a ∉ ar →
  load_handler X rec e (strip a) ({[strip a]} ∪ ar) = Some (ar2, hst) →
  source_ready X ty (strip a) e hst = true →
  autostart_group X edb rec ty ic egroup (ar, riders)
  = Some (ar2 ∖ {[strip a]},
          (riders ++ flat_map (λ p, ranked_at ic p (h_result_gen X (strip a) e hst))
                              (placeset X b))%list).
Proof.
  intros Hsp He Har Hload Hready. unfold autostart_group.
  rewrite Hsp, He. simpl. rewrite decide_False by done.
  rewrite Hload, Hready. by rewrite emit_load_places.
Qed.

(** A group whose source is not ready adds no rider. *)
Lemma autostart_group_not_ready rec ty ic egroup a b e ar riders ar2 hst :
  split_on ":" egroup = [a; b] →
  edb !! strip a = Some e →
  strip a ∉ ar →
  load_handler X rec e (strip a) ({[strip a]} ∪ ar) = Some (ar2, hst) →
  source_ready X ty (strip a) e hst = false →
  autostart_group X edb rec ty ic egroup (ar, riders)
  = Some (ar2 ∖ {[strip a]}, riders).
Proof.
  intros Hsp He Har Hload Hready. unfold autostart_group.
  rewrite Hsp, He. simpl. rewrite decide_False by done.
  rewrite Hload, Hready. by rewrite emit_empty, app_nil_r.
Qed.

Lemma autoplace_group_loaded fuel final egroup a b e ar places ar2 hst :
  split_on ":" egroup = [a; b] →
  edb !! strip a = Some e →
  strip a ∉ ar →
  load_handler X (λ ty auto ic ar', autostart_riders X edb fuel ty auto ic true ar')
    e (strip a) ({[strip a]} ∪ ar) = Some (ar2, hst) →
  autoplace_group X edb fuel final egroup (ar, places)
  = Some (ar2 ∖ {[strip a]},
          if negb final || String.eqb (h_standingstr X (strip a) e hst) "Result"
          then load_ranks (placeset X b) (h_result_gen X (strip a) e hst) places
          else places).
Proof.
  intros Hsp He Har Hload. unfold autoplace_group.
  rewrite Hsp. simpl. rewrite decide_False by done. by rewrite He, Hload.
Qed.



Lemma autostart_riders_over_limit fuel ty auto ic final (ar : gset string) :
  MAX_AUTORECURSE < size ar →
  autostart_riders X edb (S fuel) ty auto ic final ar = Some (ar, []).
Proof. intros Hsz. simpl. by rewrite decide_True by done. Qed.

End ResolverFacts.

Import Examples.

(** C2, amended.  For every autospec group that [autostart_riders]
    resolves from a ready source, the riders are added in the literal
    order of the place-set, not in numeric rank order, the riders tied on
    a rank staying together in the order of the result: the place-set
    "3 1 2" over the ranks {1:A, 2:B, 3:C} adds C, A, B.
    [autoplace_riders] files the riders of a rank together in the same way
    but returns the ranks in ascending numeric order, the tied riders
    joined by "-". *)
Theorem autostart_keeps_placeset_order :
  (∀ X edb rec ty ic egroup a b e (ar : gset string) riders ar2 hst,
     split_on ":" egroup = [a; b] →
     edb !! strip a = Some e →
     strip a ∉ ar →
     load_handler X rec e (strip a) ({[strip a]} ∪ ar) = Some (ar2, hst) →
     source_ready X ty (strip a) e hst = true →
     autostart_group X edb rec ty ic egroup (ar, riders)
     = Some (ar2 ∖ {[strip a]},
             (riders
              ++ flat_map (λ p, ranked_at ic p (h_result_gen X (strip a) e hst))
                          (placeset X b))%list))
  ∧ ex_placeset "3 1 2" = [3; 1; 2]%Z
  ∧ autostart_riders (abc_collab {["1"]}) (one_edb "scratch") 10
      "sprint round" "1:3 1 2" None true ∅
    = Some (∅, [("C", CNone); ("A", CNone); ("B", CNone)])
  ∧ autostart_riders (ex_collab {["1"]} (λ _ _, tie_rows)) (one_edb "scratch") 10
      "sprint round" "1:2 1" (Some 1) true ∅
    = Some (∅, [("C", CInt 2); ("A", CInt 1); ("B", CInt 1)])
  ∧ (∀ ps rows (m : gmap Z (list string)) p,
       default [] (load_ranks ps rows m !! p)
       = (default [] (m !! p)
          ++ (if decide (p ∈ ps) then riders_at p rows else []))%list)
  ∧ (∀ places : gmap Z (list string),
       StronglySorted Z.le (sorted_places places)
       ∧ NoDup (sorted_places places)
       ∧ ∀ p, p ∈ sorted_places places ↔ is_Some (places !! p))
  ∧ autoplace_riders (ex_collab {["1"]} (λ _ _, tie_rows)) (one_edb "scratch") 10
      "1:2 1" false ∅
    = Some (∅, " A-B C").
Proof.
  split; [intros; by eapply autostart_group_ready|].
  split; [vm_compute; reflexivity|].
  split; [vm_compute; reflexivity|].
  split; [vm_compute; reflexivity|].
  split; [intros; apply load_ranks_lookup|].
  split; [intros; apply sorted_places_spec|].
  vm_compute; reflexivity.
Qed.

Lemma autostart_keeps_placeset_order_witness :
  autostart_group (abc_collab {["1"]}) (one_edb "scratch")
    (λ ty auto ic ar', autostart_riders (abc_collab {["1"]}) (one_edb "scratch")
                         9 ty auto ic true ar')
    "sprint round" None "1:3 1 2" (∅, [])
  = Some (({["1"]} : gset string) ∖ {[strip "1"]},
          ([] ++ flat_map (λ p, ranked_at None p abc_rows) [3; 1; 2]%Z)%list).
Proof.
  apply (proj1 autostart_keeps_placeset_order (abc_collab {["1"]})
           (one_edb "scratch") _ "sprint round" None "1:3 1 2" "1" "3 1 2"
           (ex_event "scratch" "") ∅ [] {["1"]} []).
  - reflexivity.
  - reflexivity.
  - vm_compute. intros H. inversion H.
  - vm_compute. reflexivity.
  - reflexivity.
Defined.

(** C2 as stated fails for [autoplace_riders]: the place-set "3 1 2" over
    the ranks {1:A, 2:B, 3:C} gives the places in rank order A, B, C. *)
Lemma autoplace_order_counterexample :
  ex_placeset "3 1 2" = [3; 1; 2]%Z
  ∧ autoplace_riders (abc_collab {["1"]}) (one_edb "scratch") 10
      "1:3 1 2" false ∅
    = Some (∅, " A B C")
  ∧ " A B C" ≠ " C A B".
Proof.
  split; [vm_compute; reflexivity|].
  split; [vm_compute; reflexivity|]. discriminate.
Qed.

(** C3, amended.  In [autoplace_riders] a group contributes no places
    when [final] is set and the standing of the source is not "Result",
    whatever the type of the source, and a source is used, final or not,
    when [final] is not set.  [autostart_riders] does not consult [final]:
    a source that is not finished adds no riders (the group is passed
    over, no error), except that a source of type "omnium" is used before
    it is finished whenever the target is not a classification; a finished
    source is used. *)
Theorem final_flag_handling :
  (∀ X edb fuel egroup a b e (ar : gset string) places ar2 hst,
     split_on ":" egroup = [a; b] →
     edb !! strip a = Some e →
     strip a ∉ ar →
     load_handler X
       (λ ty auto ic ar', autostart_riders X edb fuel ty auto ic true ar')
       e (strip a) ({[strip a]} ∪ ar) = Some (ar2, hst) →
     (h_standingstr X (strip a) e hst ≠ "Result" →
      autoplace_group X edb fuel true egroup (ar, places)
      = Some (ar2 ∖ {[strip a]}, places))
     ∧ (h_standingstr X (strip a) e hst = "Result" →
        autoplace_group X edb fuel true egroup (ar, places)
        = Some (ar2 ∖ {[strip a]},
                load_ranks (placeset X b) (h_result_gen X (strip a) e hst) places))
     ∧ autoplace_group X edb fuel false egroup (ar, places)
       = Some (ar2 ∖ {[strip a]},
               load_ranks (placeset X b) (h_result_gen X (strip a) e hst) places))
  ∧ (∀ X edb rec ty ic egroup a b e (ar : gset string) riders ar2 hst,
       split_on ":" egroup = [a; b] →
       edb !! strip a = Some e →
       strip a ∉ ar →
       load_handler X rec e (strip a) ({[strip a]} ∪ ar) = Some (ar2, hst) →
       (h_finished X (strip a) e hst = false →
        ev_type e ≠ "omnium" ∨ ty = "classification" →
        autostart_group X edb rec ty ic egroup (ar, riders)
        = Some (ar2 ∖ {[strip a]}, riders))
       ∧ (h_finished X (strip a) e hst = true
          ∨ (ev_type e = "omnium" ∧ ty ≠ "classification") →
          autostart_group X edb rec ty ic egroup (ar, riders)
          = Some (ar2 ∖ {[strip a]},
                  (riders
                   ++ flat_map
                        (λ p, ranked_at ic p (h_result_gen X (strip a) e hst))
                        (placeset X b))%list))).
Proof.
  split.
  - intros X edb fuel egroup a b e ar places ar2 hst Hsp He Har Hload.
    repeat split.
    + intros Hst. rewrite (autoplace_group_loaded X edb fuel true egroup a b e
                             ar places ar2 hst) by done.
      simpl. apply String.eqb_neq in Hst. by rewrite Hst.
    + intros Hst. rewrite (autoplace_group_loaded X edb fuel true egroup a b e
                             ar places ar2 hst) by done.
      simpl. apply String.eqb_eq in Hst. by rewrite Hst.
    + by rewrite (autoplace_group_loaded X edb fuel false egroup a b e
                    ar places ar2 hst) by done.
  - intros X edb rec ty ic egroup a b e ar riders ar2 hst Hsp He Har Hload.
    split.
    + intros Hfin Hno. eapply autostart_group_not_ready; try done.
      unfold source_ready. rewrite Hfin. simpl.
      destruct Hno as [Hno|Hno].
      * apply String.eqb_neq in Hno. by rewrite Hno.
      * apply String.eqb_eq in Hno. rewrite Hno. apply andb_false_r.
    + intros Hyes. eapply autostart_group_ready; try done.
      unfold source_ready. destruct Hyes as [->|[Hom Hcl]]; [done|].
      apply String.eqb_eq in Hom. apply String.eqb_neq in Hcl.
      rewrite Hom, Hcl. apply orb_true_r.
Qed.

Lemma final_flag_handling_witness :
  autoplace_group (abc_collab ∅) (one_edb "omnium") 9 true "1:3 1 2" (∅, ∅)
  = Some (({["1"]} : gset string) ∖ {[strip "1"]}, ∅).
Proof.
  apply (proj1 final_flag_handling (abc_collab ∅) (one_edb "omnium") 9
           "1:3 1 2" "1" "3 1 2" (ex_event "omnium" "") ∅ ∅ {["1"]} []).
  - reflexivity.
  - reflexivity.
  - vm_compute. intros H. inversion H.
  - vm_compute. reflexivity.
  - discriminate.
Defined.

(** C3 as stated fails on both paths.  With [final] not set,
    [autostart_riders] still passes over a source that is not finished;
    with [final] set, [autoplace_riders] passes over an unfinished omnium
    source although the target is not a classification. *)
Lemma final_flag_counterexample :
  autostart_riders (abc_collab ∅) (one_edb "scratch") 10
    "sprint round" "1:3 1 2" None false ∅
  = Some (∅, [])
  ∧ autostart_riders (abc_collab {["1"]}) (one_edb "scratch") 10
      "sprint round" "1:3 1 2" None false ∅
    = Some (∅, [("C", CNone); ("A", CNone); ("B", CNone)])
  ∧ autoplace_riders (abc_collab ∅) (one_edb "omnium") 10 "1:3 1 2" true ∅
    = Some (∅, "")
  ∧ autostart_riders (abc_collab ∅) (one_edb "omnium") 10
      "sprint round" "1:3 1 2" None true ∅
    = Some (∅, [("C", CNone); ("A", CNone); ("B", CNone)]).
Proof. repeat split; vm_compute; reflexivity. Qed.

(** C4, amended.  [autostart_riders] is bounded at depth 8: called with
    more than [MAX_AUTORECURSE] source events on the guard it returns at
    once, adding no rider and leaving the guard as it is, and raises no
    error.  So in a chain of autospecs the ninth nested call gives up: with
    E1 seeded from E2, ..., E9 from E10, resolving "E1:1" adds nothing,
    where the chain that ends at E9 passes rider 7 up to the target.  The
    bound is that of [autostart_riders]. *)
Theorem autostart_recursion_bound :
  (∀ X edb fuel ty auto ic final (ar : gset string),
     MAX_AUTORECURSE < size ar →
     autostart_riders X edb (S fuel) ty auto ic final ar = Some (ar, []))
  ∧ autostart_riders (chain_collab 9) (chain_dir 9) 10
      "scratch" "E1:1" None true ∅
    = Some (∅, [("7", CNone)])
  ∧ autostart_riders (chain_collab 10) (chain_dir 10) 10
      "scratch" "E1:1" None true ∅
    = Some (∅, [])
  ∧ autostart_riders (chain_collab 10) (chain_dir 10) 10
      "scratch" "E2:1" None true ∅
    = Some (∅, [("7", CNone)]).
Proof.
  split; [intros; by apply autostart_riders_over_limit|].
  repeat split; vm_compute; reflexivity.
Qed.

Lemma autostart_recursion_bound_witness :
  autostart_riders (abc_collab {["1"]}) (one_edb "scratch") 10
    "sprint round" "1:3 1 2" None true nine_guard
  = Some (nine_guard, []).
Proof.
  apply (proj1 autostart_recursion_bound (abc_collab {["1"]})
           (one_edb "scratch") 9 "sprint round" "1:3 1 2" None true nine_guard).
  vm_compute. lia.
Defined.

(** C4 as stated fails for [autoplace_riders], which has no depth check:
    with nine events on the guard it still resolves its groups, where
    [autostart_riders] gives up. *)
Lemma autoplace_unbounded_counterexample :
  size nine_guard = 9
  ∧ autoplace_riders (abc_collab {["1"]}) (one_edb "scratch") 10
      "1:3 1 2" false nine_guard
    = Some (nine_guard, " A B C")
  ∧ autostart_riders (abc_collab {["1"]}) (one_edb "scratch") 10
      "sprint round" "1:3 1 2" None true nine_guard
    = Some (nine_guard, []).
Proof. repeat split; vm_compute; reflexivity. Qed.

End AutospecFacts.

Module CycleFacts.
Import Dirty Autospec Examples.


End CycleFacts.

Module ExportFacts.
Import Dirty ExportPass Examples.

Lemma single_flight_init : single_flight meet_init.
Proof. split; [done|]. intros t Ht. set_solver. Qed.

Lemma single_flight_step m m' :
  single_flight m → step m m' → single_flight m'.
Proof.
  intros [Hlock Hone] Hstep. destruct Hstep as [m|m|m t Ht].
  - unfold menu_data_export_activate_cb. rewrite Hlock.
    destruct (exporter m) as [t|] eqn:Hex.
    + destruct (decide (t ∈ alive m)) as [Hin|Hnin]; simpl.
      * split; [done|]. intros t' Ht'. rewrite Hex. by apply Hone.
      * split; [done|]. simpl. intros t' Ht'.
        specialize (Hone t' Ht'). by simplify_eq.
    + simpl. split; [done|]. simpl. intros t' Ht'.
      apply elem_of_union in Ht' as [Ht'|Ht']; [set_solver|].
      specialize (Hone t' Ht'). congruence.
  - unfold poll_exporter. destruct (exporter m) as [t|] eqn:Hex.
    + destruct (decide (t ∈ alive m)) as [Hin|Hnin].
      * split; [done|]. intros t' Ht'. rewrite Hex. by apply Hone.
      * split; [done|]. simpl. intros t' Ht'.
        specialize (Hone t' Ht'). by simplify_eq.
    + split; [done|]. intros t' Ht'. rewrite Hex. by apply Hone.
  - split; [done|]. simpl. intros t' Ht'. apply Hone. set_solver.
Qed.

Lemma reachable_single_flight m : reachable m → single_flight m.
Proof.
  unfold reachable. revert m. apply rtc_ind_r; [apply single_flight_init|].
  intros m m' _ Hstep Hm. by eapply single_flight_step.
Qed.

Lemma single_flight_size m : single_flight m → (size (alive m) ≤ 1)%nat.
Proof.
  intros [_ Hone]. destruct (set_choose_or_empty (alive m)) as [[t Ht]|Hemp].
  - assert (alive m ⊆ {[t]}) as Hsub.
    { intros t' Ht'. pose proof (Hone t Ht) as H1.
      pose proof (Hone t' Ht') as H2. rewrite H1 in H2. set_solver. }
    apply subseteq_size in Hsub. by rewrite size_singleton in Hsub.
  - apply size_empty_iff in Hemp. lia.
Qed.


(** The first loop collects the stale events among those it walks, and
    only sets flags of stale events. *)
Lemma dirty_scan_spec edb0 evnos :
  ∀ edb_i dmap_i dmap edb1,
    marks edb0 edb_i →
    dirty_scan evnos edb_i dmap_i = Some (dmap, edb1) →
    marks edb0 edb1
    ∧ ∀ e, e ∈ dmap ↔ e ∈ dmap_i ∨ (e ∈ evnos ∧ stale edb0 e).
Proof.
  induction evnos as [|evno rest IH]; intros edb_i dmap_i dmap edb1 Hm Hrun;
    simpl in Hrun.
  - simplify_eq. split; [done|]. intros e. set_solver.
  - destruct (check_depends_dirty edb_i evno) as [[b edb2]|] eqn:Hc; [|done].
    apply DirtyFacts.check_depends_dirty_outcome in Hc as (Hb & _ & Hm2).
    apply IH in Hrun; [|by eapply DirtyFacts.marks_trans].
    destruct Hrun as [Hm1 Hin]. split; [done|].
    intros e. rewrite Hin, elem_of_cons.
    rewrite (DirtyFacts.stale_marks _ _ _ Hm) in Hb.
    destruct b.
    + rewrite elem_of_app, list_elem_of_singleton.
      assert (stale edb0 evno) by by apply Hb. naive_solver.
    + assert (¬ stale edb0 evno) by (intros ?%Hb; done). naive_solver.
Qed.

Section PassFacts.

Variable handler_ok : string → event → bool.
Variable webfile : string → string.

Lemma export_events_cons evno rest (edb : eventdb) written :
  export_events handler_ok webfile (evno :: rest) edb written
  = match edb !! evno with
    | None => export_events handler_ok webfile rest edb written
    | Some e =>
        if handler_ok evno e then
          export_events handler_ok webfile rest (<[evno := set_dirty false e]> edb)
            (if ev_resu e
             then written ++ ((λ f, (evno, f)) <$> event_files webfile evno)
             else written)%list
        else (false, <[evno := set_dirty false e]> edb, written)
    end.
Proof. reflexivity. Qed.

(** The second loop, when it runs to its end: every event of [dmap] has
    its flag cleared, no other record changes, and files are written for
    the events of [dmap] flagged for result export and for no other. *)
Lemma export_events_spec dmap :
  ∀ (edb1 : eventdb) written edb2 written2,
    (∀ e, e ∈ dmap → is_Some (edb1 !! e)) →
    export_events handler_ok webfile dmap edb1 written = (true, edb2, written2) →
    (∀ e, e ∈ dmap → is_dirty edb2 e = false)
    ∧ (∀ e, e ∉ dmap → edb2 !! e = edb1 !! e)
    ∧ (∀ e, ev_resu <$> edb2 !! e = ev_resu <$> edb1 !! e)
    ∧ (∀ e f, (e, f) ∈ written2 ↔
              (e, f) ∈ written
              ∨ (e ∈ dmap ∧ ev_resu <$> edb1 !! e = Some true
                 ∧ f ∈ event_files webfile e)).
Proof.
  induction dmap as [|evno rest IH]; intros edb1 written edb2 written2 Hdom Hrun.
  - simpl in Hrun. simplify_eq. repeat split; try done; set_solver.
  - rewrite export_events_cons in Hrun.
    destruct (Hdom evno) as [ev Hev]; [by left|]. rewrite Hev in Hrun.
    destruct (handler_ok evno ev); [|done].
    apply IH in Hrun.
    2:{ intros e He. destruct (decide (e = evno)) as [->|Hne].
        - rewrite lookup_insert_eq. eauto.
        - rewrite lookup_insert_ne by done. apply Hdom. by right. }
    destruct Hrun as (Hclean & Hframe & Hresu & Hfiles).
    assert (∀ e, ev_resu <$> <[evno := set_dirty false ev]> edb1 !! e
                 = ev_resu <$> edb1 !! e) as Hresu1.
    { intros e. destruct (decide (e = evno)) as [->|Hne].
      - by rewrite lookup_insert_eq, Hev.
      - by rewrite lookup_insert_ne by done. }
    split; [|split; [|split]].
    + intros e He. destruct (decide (e ∈ rest)) as [Hin|Hnin]; [by apply Hclean|].
      apply elem_of_cons in He as [->|He]; [|done].
      unfold is_dirty. rewrite (Hframe _ Hnin), lookup_insert_eq. done.
    + intros e He. apply not_elem_of_cons in He as [Hne He].
      rewrite (Hframe _ He). by rewrite lookup_insert_ne by done.
    + intros e. by rewrite Hresu, Hresu1.
    + intros e f. rewrite Hfiles. setoid_rewrite Hresu1.
      rewrite elem_of_cons. destruct (ev_resu ev) eqn:Hr.
      * rewrite elem_of_app, list_elem_of_fmap. split.
        -- intros [[Hw|(f' & Heq & Hf')]|(Hin & Hre & Hf)].
           ++ by left.
           ++ injection Heq as -> ->. right. split; [by left|].
              split; [|done]. rewrite Hev. simpl. by rewrite Hr.
           ++ right. split; [by right|]. done.
        -- intros [Hw|([->|Hin] & Hre & Hf)].
           ++ left. by left.
           ++ left. right. by exists f.
           ++ right. done.
      * split.
        -- intros [Hw|(Hin & Hre & Hf)]; [by left|].
           right. split; [by right|done].
        -- intros [Hw|([->|Hin] & Hre & Hf)]; [by left| |by right].
           rewrite Hev in Hre. simpl in Hre. congruence.
Qed.

End PassFacts.

Lemma elem_of_keys (edb : eventdb) e :
  e ∈ (map_to_list edb).*1 ↔ is_Some (edb !! e).
Proof.
  rewrite list_elem_of_fmap. split.
  - intros ([k v] & -> & Hin). apply elem_of_map_to_list in Hin. eauto.
  - intros [v Hv]. exists (e, v). split; [done|]. by apply elem_of_map_to_list.
Qed.



(** C8.  In every state the system can reach, at most one export worker
    is running; and while one is running a new export request returns at
    once with 'Export already in progress' and leaves the state as it was:
    no worker is created and nothing is recorded for later.  A request
    that finds the lock held returns at once as well. *)
Theorem export_single_flight (m : meet) :
  reachable m →
  (size (alive m) ≤ 1)%nat
  ∧ (alive m ≠ ∅ → menu_data_export_activate_cb m = (m, InProgress))
  ∧ (∀ m0, exportlock m0 = true →
           menu_data_export_activate_cb m0 = (m0, LockBusy)).
Proof.
  intros Hr. apply reachable_single_flight in Hr as Hsf.
  split; [by apply single_flight_size|]. split.
  - intros Hne. destruct Hsf as [Hlock Hone].
    apply set_choose_L in Hne as [t Ht].
    unfold menu_data_export_activate_cb.
    rewrite Hlock, (Hone t Ht). by rewrite decide_True by done.
  - intros m0 Hl. unfold menu_data_export_activate_cb. by rewrite Hl.
Qed.

Lemma export_single_flight_witness :
  alive meet_running = {[0]}
  ∧ (size (alive meet_running) ≤ 1)%nat
  ∧ menu_data_export_activate_cb meet_running = (meet_running, InProgress).
Proof.
  assert (reachable meet_running) as Hr.
  { apply rtc_once. apply step_request. }
  destruct (export_single_flight meet_running Hr) as (Hsz & Hbusy & _).
  split; [vm_compute; reflexivity|]. split; [exact Hsz|].
  apply Hbusy. vm_compute. discriminate.
Defined.

End ExportFacts.

Module RenumberFacts.
Import Renumber Examples.

Lemma str_app_cons c (s t : string) : String c s ++ t = String c (s ++ t).
Proof. reflexivity. Qed.

Lemma str_app_nil_l (s : string) : "" ++ s = s.
Proof. reflexivity. Qed.




(** *** White space separated lists *)





(** *** Lists separated by one character *)















End RenumberFacts.

(** * Further properties of the dirty tracker *)

Module DirtyMore.
Import Dirty Examples.

Lemma check_depends_dirty_false_same (edb : eventdb) e edb' :
  check_depends_dirty edb e = Some (false, edb') → edb' = edb.
Proof.
  intros Hrun. apply DirtyFacts.check_rec_spec in Hrun as [Hf _].
  destruct (Hf eq_refl) as [Heq _]. simpl in Heq. done.
Qed.

(** X1.  When [check_depends_dirty] returns false it has changed no
    record, and no flagged event is reachable from the event asked for. *)
Theorem check_depends_dirty_false_frame (edb : eventdb) e edb' :
  check_depends_dirty edb e = Some (false, edb') →
  edb' = edb ∧ ¬ stale edb e.
Proof.
  intros Hrun.
  pose proof (DirtyFacts.check_depends_dirty_outcome _ _ _ _ Hrun)
    as (Hiff & _ & _).
  apply DirtyFacts.check_rec_spec in Hrun as [Hf _].
  destruct (Hf eq_refl) as [Heq _]. simpl in Heq. split; [done|].
  intros Hst. apply Hiff in Hst. discriminate.
Qed.

Lemma check_depends_dirty_false_frame_witness :
  check_depends_dirty cyc_edb "A" = Some (false, cyc_edb)
  ∧ cyc_edb = cyc_edb ∧ ¬ stale cyc_edb "A".
Proof.
  assert (check_depends_dirty cyc_edb "A" = Some (false, cyc_edb)) as Hrun
    by (vm_compute; reflexivity).
  split; [exact Hrun|].
  exact (check_depends_dirty_false_frame cyc_edb "A" cyc_edb Hrun).
Defined.

Lemma check_depends_dirty_flagged (edb : eventdb) e :
  is_dirty edb e = true → check_depends_dirty edb e = Some (true, edb).
Proof.
  intros Hd. unfold check_depends_dirty. simpl.
  unfold is_dirty in Hd. destruct (edb !! e) as [ev|] eqn:Hev; [|done].
  apply DirtyFacts.scan_depends_dirty. unfold is_dirty. by rewrite Hev.
Qed.

(** X2.  [check_depends_dirty] is idempotent: called again in the state
    it left, it returns the same value and changes nothing. *)
Theorem check_depends_dirty_idempotent (edb : eventdb) e b edb' :
  check_depends_dirty edb e = Some (b, edb') →
  check_depends_dirty edb' e = Some (b, edb').
Proof.
  intros Hrun. destruct b.
  - apply check_depends_dirty_flagged.
    by apply DirtyFacts.check_depends_dirty_outcome in Hrun as (_ & ? & _).
  - by rewrite (check_depends_dirty_false_same _ _ _ Hrun) in Hrun |- *.
Qed.

Lemma check_depends_dirty_idempotent_witness :
  ∃ edb', check_depends_dirty chain_edb "E3" = Some (true, edb')
          ∧ check_depends_dirty edb' "E3" = Some (true, edb').
Proof.
  destruct (check_depends_dirty chain_edb "E3") as [[b edb']|] eqn:Hrun;
    [|vm_compute in Hrun; discriminate].
  assert (b = true) as ->.
  { assert (fst <$> check_depends_dirty chain_edb "E3" = Some true) as Hb
      by (vm_compute; reflexivity).
    rewrite Hrun in Hb. simpl in Hb. congruence. }
  exists edb'. split; [done|].
  by apply (check_depends_dirty_idempotent chain_edb "E3" true edb').
Defined.

(** X3.  Dependencies that are not in the directory count as not dirty:
    an event whose depend list names only such events is dirty exactly
    when its own flag is set, and the call changes nothing. *)
Theorem check_depends_dirty_unknown_deps (edb : eventdb) e ev :
  edb !! e = Some ev →
  (∀ d, d ∈ split_ws (ev_depe ev) → edb !! d = None) →
  check_depends_dirty edb e = Some (ev_dirty ev, edb).
Proof.
  intros Hev Hdeps. destruct (ev_dirty ev) eqn:Hd.
  - apply check_depends_dirty_flagged. unfold is_dirty. by rewrite Hev.
  - destruct (DirtyFacts.check_depends_dirty_total edb e) as [[b edb'] Hrun].
    assert (¬ stale edb e) as Hclean.
    { intros (d & Hed & Hdd).
      inversion Hed as [|? y ? (ev' & Hev' & Hy) Hyd]; simplify_eq.
      - unfold is_dirty in Hdd. rewrite Hev in Hdd. congruence.
      - specialize (Hdeps y Hy).
        inversion Hyd as [|? z ? (ev2 & Hev2 & _) _]; simplify_eq.
        unfold is_dirty in Hdd. by rewrite Hdeps in Hdd. }
    pose proof (DirtyFacts.check_depends_dirty_outcome _ _ _ _ Hrun)
      as (Hiff & _ & _).
    destruct b; [by destruct Hclean; apply Hiff|].
    by rewrite (check_depends_dirty_false_same _ _ _ Hrun) in Hrun.
Qed.

Lemma check_depends_dirty_unknown_deps_witness :
  check_depends_dirty orphan_edb "7" = Some (false, orphan_edb).
Proof.
  apply (check_depends_dirty_unknown_deps orphan_edb "7"
           (export_event "98 99" true false)).
  - reflexivity.
  - intros d Hd. vm_compute in Hd.
    apply elem_of_cons in Hd as [->|Hd]; [reflexivity|].
    apply elem_of_cons in Hd as [->|Hd]; [reflexivity|].
    by apply elem_of_nil in Hd.
Defined.

End DirtyMore.

(** * Further properties of the export pass *)

Module ExportMore.
Import Dirty ExportPass Examples.

(** X4.  A request that comes after the worker has ended but before the
    timer has removed its handle only removes the handle: no worker is
    started.  The request after that one starts a worker. *)
Theorem export_request_on_stale_handle (m : meet) (t : nat) :
  reachable m → exporter m = Some t → t ∉ alive m →
  (menu_data_export_activate_cb m).2 = StaleRemoved
  ∧ alive (menu_data_export_activate_cb m).1 = ∅
  ∧ spawned (menu_data_export_activate_cb m).1 = spawned m
  ∧ (menu_data_export_activate_cb (menu_data_export_activate_cb m).1).2
    = Started (spawned m)
  ∧ alive (menu_data_export_activate_cb (menu_data_export_activate_cb m).1).1
    = {[spawned m]}.
Proof.
  intros Hr Hex Ht.
  apply ExportFacts.reachable_single_flight in Hr as [Hlock Hone].
  assert (alive m = ∅) as Hempty.
  { apply set_eq. intros t'. split; [|set_solver].
    intros Ht'. specialize (Hone t' Ht'). rewrite Hex in Hone.
    by simplify_eq. }
  assert (menu_data_export_activate_cb m
          = ({| exporter := None; alive := alive m; exportlock := false;
                spawned := spawned m |}, StaleRemoved)) as ->.
  { unfold menu_data_export_activate_cb.
    rewrite Hlock, Hex. by rewrite decide_False by done. }
  unfold menu_data_export_activate_cb. simpl. rewrite Hempty.
  split; [done|]. split; [done|]. split; [done|]. split; [done|].
  apply union_empty_r_L.
Qed.

Lemma export_request_on_stale_handle_witness :
  (menu_data_export_activate_cb meet_ended).2 = StaleRemoved
  ∧ alive (menu_data_export_activate_cb meet_ended).1 = ∅
  ∧ spawned (menu_data_export_activate_cb meet_ended).1 = spawned meet_ended
  ∧ (menu_data_export_activate_cb
       (menu_data_export_activate_cb meet_ended).1).2
    = Started (spawned meet_ended)
  ∧ alive (menu_data_export_activate_cb
             (menu_data_export_activate_cb meet_ended).1).1
    = {[spawned meet_ended]}.
Proof.
  apply (export_request_on_stale_handle meet_ended 0).
  - eapply rtc_l; [apply step_request|].
    apply rtc_once. apply (step_exit meet_running 0).
    unfold meet_running. simpl. set_solver.
  - reflexivity.
  - unfold meet_ended, meet_running. simpl. set_solver.
Defined.


(** A directory without a flagged event: the scan finds nothing and
    changes nothing. *)
Lemma dirty_scan_clean (edb : eventdb) :
  (∀ e, is_dirty edb e = false) →
  ∀ evnos dmap0, dirty_scan evnos edb dmap0 = Some (dmap0, edb).
Proof.
  intros Hclean. induction evnos as [|evno rest IH]; intros dmap0; simpl;
    [done|].
  destruct (DirtyFacts.check_depends_dirty_total edb evno) as [[b edb'] Hrun].
  rewrite Hrun.
  pose proof (DirtyFacts.check_depends_dirty_outcome _ _ _ _ Hrun)
    as (Hiff & _ & _).
  destruct b.
  - destruct (proj1 Hiff eq_refl) as (d & _ & Hd). by rewrite Hclean in Hd.
  - apply DirtyMore.check_depends_dirty_false_same in Hrun as ->.
    apply IH.
Qed.

Section PassMore.

Variable handler_ok : string → event → bool.
Variable webfile : string → string.

(** X5.  A pass that runs to its end leaves no event flagged dirty, and a
    second pass right after it finds no dirty event, clears nothing and
    writes nothing. *)
Theorem export_pass_idempotent (edb : eventdb) dmap edb2 written :
  run_data_export handler_ok webfile edb = Some (dmap, (true, edb2, written)) →
  (∀ e, is_dirty edb2 e = false)
  ∧ run_data_export handler_ok webfile edb2 = Some ([], (true, edb2, [])).
Proof.
  unfold run_data_export at 1. intros Hrun.
  destruct (dirty_scan (map_to_list edb).*1 edb []) as [[dmap' edb1]|] eqn:Hscan;
    [|done].
  injection Hrun as -> Hexp.
  apply (ExportFacts.dirty_scan_spec edb) in Hscan as [Hm Hin];
    [|apply DirtyFacts.marks_refl].
  apply ExportFacts.export_events_spec in Hexp.
  2:{ intros e He. apply Hin in He as [He|[_ He]]; [by apply elem_of_nil in He|].
      apply DirtyFacts.stale_in_dom in He.
      apply elem_of_dom. rewrite (DirtyFacts.marks_dom _ _ Hm).
      by apply elem_of_dom. }
  destruct Hexp as (Hclean & Hframe & _ & _).
  assert (∀ e, is_dirty edb2 e = false) as Hall.
  { intros e. destruct (decide (e ∈ dmap)) as [He|He]; [by apply Hclean|].
    unfold is_dirty. rewrite (Hframe _ He).
    destruct (is_dirty edb1 e) eqn:Hd; [|done].
    destruct He. apply Hin. right.
    pose proof (DirtyFacts.is_dirty_marks _ _ _ Hm Hd) as Hst.
    split; [|done]. apply ExportFacts.elem_of_keys.
    by apply DirtyFacts.stale_in_dom. }
  split; [done|]. unfold run_data_export.
  by rewrite (dirty_scan_clean edb2 Hall).
Qed.



End PassMore.

Lemma export_pass_idempotent_witness :
  ∃ dmap edb2 written,
    run_data_export (λ _ _, true) id export_edb
    = Some (dmap, (true, edb2, written))
    ∧ (∀ e, is_dirty edb2 e = false)
    ∧ run_data_export (λ _ _, true) id edb2 = Some ([], (true, edb2, [])).
Proof.
  assert (∃ x y z, run_data_export (λ _ _, true) id export_edb
                   = Some (x, (true, y, z))) as (x & y & z & Hc)
    by (vm_compute; eauto).
  exists x, y, z. split; [exact Hc|].
  exact (export_pass_idempotent (λ _ _, true) id export_edb x y z Hc).
Defined.


End ExportMore.

Module CommuniqueMore.
Import Communique CommuniqueRun.

(** X7.  An allocation never touches the entries that are there: every
    key keeps its number, at most the key asked for is added, and if no
    two keys shared a number before, none do afterwards. *)
Theorem find_communique_keeps_entries (ca : commalloc) k r ca' :
  find_communique ca k = Some (r, ca') →
  (∀ k' v, ca !! k' = Some v → ca' !! k' = Some v)
  ∧ (∀ k', k' ≠ k → ca' !! k' = ca !! k')
  ∧ ((∀ k1 k2 v, ca !! k1 = Some v → ca !! k2 = Some v → k1 = k2) →
     (∀ k1 k2 v, ca' !! k1 = Some v → ca' !! k2 = Some v → k1 = k2)).
Proof.
  intros Hrun. destruct (ca !! k) as [v|] eqn:Hk.
  - rewrite (CommuniqueFacts.find_communique_known ca k v Hk) in Hrun.
    by simplify_eq.
  - destruct (CommuniqueFacts.find_communique_new ca k Hk)
      as (n & _ & _ & [[Hfree Hres]|(_ & _ & Hres)]);
      rewrite Hres in Hrun; simplify_eq; [|done].
    split; [|split].
    + intros k' v Hv. rewrite lookup_insert_ne; [done|]. congruence.
    + intros k' Hne. by rewrite lookup_insert_ne.
    + intros Hinj k1 k2 v H1 H2.
      apply lookup_insert_Some in H1 as [[<- <-]|[Hn1 H1]];
        apply lookup_insert_Some in H2 as [[<- ?]|[Hn2 H2]]; try done.
      * destruct Hfree. by exists k2.
      * destruct Hfree. exists k1. congruence.
      * by eapply Hinj.
Qed.

Lemma find_communique_keeps_entries_witness :
  find_communique small_alloc "program1"
    = Some (Some "2", <["program1" := "2"]> small_alloc)
  ∧ (<["program1" := "2"]> small_alloc) !! "result1, 2"
    = small_alloc !! "result1, 2".
Proof.
  assert (H : find_communique small_alloc "program1"
              = Some (Some "2", <["program1" := "2"]> small_alloc))
    by (vm_compute; reflexivity).
  split; [exact H|].
  apply (find_communique_keeps_entries _ _ _ _ H). discriminate.
Defined.

Lemma pretty_nat_N (j : nat) : pretty j = pretty (N.of_nat j).
Proof. reflexivity. Qed.

Lemma find_communique_next (ca : commalloc) k (i : nat) :
  ca !! k = None → numbered_to i ca → (N.of_nat i < MAXREP)%N →
  find_communique ca k = Some (Some (pretty (S i)), <[k := pretty (S i)]> ca).
Proof.
  intros Hk Hnum Hi.
  destruct (CommuniqueFacts.find_communique_new ca k Hk)
    as (n & [Hn1 Hn2] & Hbelow & [[Hfree Hres]|(-> & Hused & _)]).
  - assert (n = N.of_nat (S i)) as ->; [|done].
    destruct (decide (n ≤ N.of_nat i)%N) as [Hle|Hgt].
    { destruct Hfree. apply Hnum. exists (N.to_nat n).
      split; [lia|]. split; [lia|].
      by rewrite pretty_nat_N, N2Nat.id. }
    destruct (decide (n = N.of_nat (S i))) as [|Hne]; [done|].
    assert (assigned ca (pretty (N.of_nat (S i)))) as Ha by (apply Hbelow; lia).
    apply Hnum in Ha as (j & Hj1 & Hj2 & Hj).
    rewrite (pretty_nat_N j) in Hj. apply (inj pretty) in Hj. lia.
  - apply Hnum in Hused as (j & Hj1 & Hj2 & Hj).
    rewrite (pretty_nat_N j) in Hj. apply (inj pretty) in Hj. lia.
Qed.

Lemma numbered_to_insert (ca : commalloc) k (i : nat) :
  ca !! k = None → numbered_to i ca →
  numbered_to (S i) (<[k := pretty (S i)]> ca).
Proof.
  intros Hk Hnum v. split.
  - intros [k' Hk']. apply lookup_insert_Some in Hk' as [[_ <-]|[_ Hk']].
    + exists (S i). split; [lia|]. split; [lia|done].
    + destruct (proj1 (Hnum v)) as (j & ? & ? & ?); [by exists k'|].
      exists j. split; [done|]. split; [lia|done].
  - intros (j & Hj1 & Hj2 & ->).
    destruct (decide (j = S i)) as [->|Hne].
    + exists k. by rewrite lookup_insert_eq.
    + destruct (proj2 (Hnum (pretty j))) as [k' Hk'].
      { exists j. split; [done|]. split; [lia|done]. }
      exists k'. rewrite lookup_insert_ne; [done|]. congruence.
Qed.

Lemma find_communiques_from keys :
  ∀ (ca : commalloc) (i : nat),
    NoDup keys → (∀ k, k ∈ keys → ca !! k = None) → numbered_to i ca →
    (N.of_nat (i + length keys) ≤ MAXREP)%N →
    ∃ ca', find_communiques keys ca
           = Some ((λ j : nat, Some (pretty j)) <$> seq (S i) (length keys), ca')
         ∧ (∀ j k, keys !! j = Some k → ca' !! k = Some (pretty (S (i + j))))
         ∧ (∀ k v, ca !! k = Some v → ca' !! k = Some v).
Proof.
  induction keys as [|k rest IH]; intros ca i Hnd Hfresh Hnum Hlen; simpl.
  - exists ca. split; [done|]. split; [|done]. intros j k Hj. done.
  - apply NoDup_cons in Hnd as [Hk Hnd].
    rewrite (find_communique_next ca k i); [|apply Hfresh; by left|done|].
    2:{ simpl in Hlen. lia. }
    destruct (IH (<[k := pretty (S i)]> ca) (S i)) as (ca' & -> & Hkeys & Hkeep).
    + done.
    + intros k' Hk'. rewrite lookup_insert_ne by set_solver.
      apply Hfresh. by right.
    + apply numbered_to_insert; [|done]. apply Hfresh. by left.
    + simpl in Hlen. lia.
    + exists ca'. split; [done|]. split.
      * intros [|j] k' Hj; simpl in Hj.
        -- simplify_eq. rewrite Nat.add_0_r. apply Hkeep.
           by rewrite lookup_insert_eq.
        -- rewrite (Hkeys j k' Hj). do 2 f_equal. lia.
      * intros k' v Hv. apply Hkeep. rewrite lookup_insert_ne; [done|].
        intros <-. rewrite Hfresh in Hv by (by left). done.
Qed.

(** X8.  Starting from an empty table, the reports get the numbers 1, 2,
    3, ... in the order in which they are first asked for, as long as
    there are no more than [MAXREP] of them, and the table keeps each
    number under its key. *)
Theorem find_communiques_in_sequence keys :
  NoDup keys → (N.of_nat (length keys) ≤ MAXREP)%N →
  ∃ ca', find_communiques keys ∅
         = Some ((λ j : nat, Some (pretty j)) <$> seq 1 (length keys), ca')
       ∧ ∀ j k, keys !! j = Some k → ca' !! k = Some (pretty (S j)).
Proof.
  intros Hnd Hlen.
  destruct (find_communiques_from keys ∅ 0 Hnd) as (ca' & Hrun & Hkeys & _).
  - intros k _. apply lookup_empty.
  - intros v. split.
    + intros [k Hk]. by rewrite lookup_empty in Hk.
    + intros (j & ? & ? & _). lia.
  - done.
  - exists ca'. split; [done|]. intros j k Hj. by apply Hkeys.
Qed.

Lemma find_communiques_in_sequence_witness :
  ∃ ca', find_communiques ["startlist1"; "result1"; "result1, 2"] ∅
         = Some ([Some "1"; Some "2"; Some "3"], ca')
       ∧ ∀ j k, ["startlist1"; "result1"; "result1, 2"] !! j = Some k →
                ca' !! k = Some (pretty (S j)).
Proof.
  apply (find_communiques_in_sequence ["startlist1"; "result1"; "result1, 2"]).
  - repeat (apply NoDup_cons; split; [set_solver|]). apply NoDup_nil_2.
  - unfold MAXREP. simpl. lia.
Defined.

End CommuniqueMore.

Module AutospecMore.
Import Autospec AutospecRun Examples.

Lemma split_on_go_sep sep (a b : string) :
  ∀ cur, split_on_go sep cur (a ++ String sep b)
         = (split_on_go sep cur a ++ split_on_go sep "" b)%list.
Proof.
  induction a as [|c a IH]; intros cur.
  - rewrite RenumberFacts.str_app_nil_l. simpl. by rewrite Ascii.eqb_refl.
  - rewrite RenumberFacts.str_app_cons. simpl.
    destruct (Ascii.eqb c sep); simpl; by rewrite IH.
Qed.

(** [(a + ';' + b).split(';')] is [a.split(';') + b.split(';')]. *)
Lemma split_on_sep sep (a b : string) :
  split_on sep (a ++ String sep b) = (split_on sep a ++ split_on sep b)%list.
Proof. apply split_on_go_sep. Qed.

Section ResolverMore.

Variable X : collab.
Variable edb : eventdb.

Lemma autostart_group_prefix rec ty ic g ar r0 :
  autostart_group X edb rec ty ic g (ar, r0)
  = add_riders r0 <$> autostart_group X edb rec ty ic g (ar, []).
Proof.
  unfold autostart_group, add_riders. simpl.
  destruct (split_on ":" g) as [|a [|b [|c l]]]; simpl;
    try by rewrite app_nil_r.
  destruct (edb !! strip a) as [e|]; simpl; [|by rewrite app_nil_r].
  destruct (decide (strip a ∈ ar)); simpl; [by rewrite app_nil_r|].
  destruct (load_handler X rec e (strip a) ({[strip a]} ∪ ar)) as [[ar2 hst]|];
    simpl; done.
Qed.

Lemma autostart_groups_prefix rec ty ic gs :
  ∀ ar r0,
    autostart_groups X edb rec ty ic gs (ar, r0)
    = add_riders r0 <$> autostart_groups X edb rec ty ic gs (ar, []).
Proof.
  induction gs as [|g gs IH]; intros ar r0; simpl.
  - unfold add_riders. simpl. by rewrite app_nil_r.
  - rewrite autostart_group_prefix.
    destruct (autostart_group X edb rec ty ic g (ar, [])) as [[ar1 r1]|];
      simpl; [|done].
    unfold add_riders at 1. simpl.
    rewrite (IH ar1 (r0 ++ r1)%list), (IH ar1 r1).
    destruct (autostart_groups X edb rec ty ic gs (ar1, [])) as [[ar2 r2]|];
      simpl; [|done].
    unfold add_riders. simpl. by rewrite app_assoc.
Qed.

Lemma autostart_groups_app rec ty ic gs1 gs2 st :
  autostart_groups X edb rec ty ic (gs1 ++ gs2) st
  = autostart_groups X edb rec ty ic gs1 st
      ≫= autostart_groups X edb rec ty ic gs2.
Proof.
  revert st. induction gs1 as [|g gs1 IH]; intros st; simpl; [done|].
  destruct (autostart_group X edb rec ty ic g st) as [st1|]; simpl; [|done].
  apply IH.
Qed.

End ResolverMore.

(** X9.  The groups of an autospec are resolved one after the other and
    independently: the riders added for [a + ';' + b] are those added for
    [a] followed by those added for [b]. *)
Theorem autostart_riders_concat X edb (fuel : nat) ty a b ic final
    (ar : gset string) :
  (MAX_AUTORECURSE + 2 ≤ fuel)%nat →
  ∃ ra rb,
    autostart_riders X edb fuel ty a ic final ar = Some (ar, ra)
    ∧ autostart_riders X edb fuel ty b ic final ar = Some (ar, rb)
    ∧ autostart_riders X edb fuel ty (a ++ ";" ++ b) ic final ar
      = Some (ar, (ra ++ rb)%list).
Proof.
  intros Hf.
  destruct (AutospecFacts.autostart_riders_total X edb fuel ty a ic final ar)
    as [ra Ha]; [lia..|].
  destruct (AutospecFacts.autostart_riders_total X edb fuel ty b ic final ar)
    as [rb Hb]; [lia..|].
  exists ra, rb. split; [done|]. split; [done|].
  destruct fuel as [|fuel]; [lia|]. simpl in *.
  destruct (decide (MAX_AUTORECURSE < size ar)); [by simplify_eq|].
  change (";" ++ b) with (String ";" b).
  rewrite split_on_sep, autostart_groups_app, Ha. simpl.
  rewrite autostart_groups_prefix, Hb. unfold add_riders. done.
Qed.

Lemma autostart_riders_concat_witness :
  ∃ ra rb,
    autostart_riders (abc_collab {["1"]}) (one_edb "scratch") 10
      "scratch" "1:3" None true ∅ = Some (∅, ra)
    ∧ autostart_riders (abc_collab {["1"]}) (one_edb "scratch") 10
        "scratch" "1:1 2" None true ∅ = Some (∅, rb)
    ∧ autostart_riders (abc_collab {["1"]}) (one_edb "scratch") 10
        "scratch" ("1:3" ++ ";" ++ "1:1 2") None true ∅
      = Some (∅, (ra ++ rb)%list).
Proof.
  apply (autostart_riders_concat (abc_collab {["1"]}) (one_edb "scratch") 10
           "scratch" "1:3" "1:1 2" None true ∅).
  unfold MAX_AUTORECURSE. lia.
Defined.

(** X10.  An autospec none of whose groups names an event of the
    directory adds no rider and leaves the guard alone: the empty
    autospec, groups that do not have exactly one ":", and groups whose
    source is missing are all passed over without error. *)
Theorem autostart_riders_no_source X (edb : eventdb) (fuel : nat) ty autospec
    ic final (ar : gset string) :
  (∀ g a b, g ∈ split_on ";" autospec → split_on ":" g = [a; b] →
            edb !! strip a = None) →
  autostart_riders X edb (S fuel) ty autospec ic final ar = Some (ar, []).
Proof.
  intros Hnone. simpl.
  destruct (decide (MAX_AUTORECURSE < size ar)); [done|].
  induction (split_on ";" autospec) as [|g gs IH]; simpl; [done|].
  assert (autostart_group X edb
            (λ ty' auto' ic' ar', autostart_riders X edb fuel ty' auto' ic' true ar')
            ty ic g (ar, []) = Some (ar, [])) as ->.
  { unfold autostart_group.
    destruct (split_on ":" g) as [|a0 [|b0 [|c0 l]]] eqn:Hs; try done.
    by rewrite (Hnone g a0 b0) by (by left || done). }
  apply IH. intros g' a' b' Hg'. apply Hnone. by right.
Qed.

Lemma autostart_riders_no_source_witness :
  autostart_riders (abc_collab {["1"]}) (one_edb "scratch") 10
    "scratch" "9:1;1;1:2:3;" None true ∅ = Some (∅, []).
Proof.
  apply (autostart_riders_no_source (abc_collab {["1"]}) (one_edb "scratch") 9).
  intros g a b Hg Hs. vm_compute in Hg.
  repeat (apply elem_of_cons in Hg as [->|Hg];
          [vm_compute in Hs; try discriminate; by simplify_eq|]).
  by apply elem_of_nil in Hg.
Defined.

End AutospecMore.

Module TriggersFacts.
Import Dirty ExportPass Triggers Examples.

Lemma delayed_export_iter n s :
  Nat.iter (S n) delayed_export s
  = {| a_meet := a_meet s; a_edb := a_edb s; exportpending := true;
       idle := S n + idle s; curevent := curevent s |}.
Proof.
  induction n as [|n IH]; [done|].
  change (Nat.iter (S (S n)) delayed_export s)
    with (delayed_export (Nat.iter (S n) delayed_export s)).
  rewrite IH. unfold delayed_export. simpl. done.
Qed.

Lemma exportcb_idle_iter n s :
  exportpending s = false →
  Nat.iter n exportcb s
  = {| a_meet := a_meet s; a_edb := a_edb s; exportpending := false;
       idle := idle s - n; curevent := curevent s |}.
Proof.
  intros Hp. induction n as [|n IH]; simpl.
  - destruct s. simpl in *. subst. f_equal. lia.
  - rewrite IH. unfold exportcb. simpl. f_equal. lia.
Qed.

(** X11.  Requests for a delayed export are coalesced: however many times
    [delayed_export] was called, the queued calls of [exportcb] save the
    open event and ask for an export once, the first of them; the others
    find nothing pending and do nothing. *)
Theorem delayed_exports_coalesce (n : nat) (s : app) :
  Nat.iter (S n) exportcb (Nat.iter (S n) delayed_export s)
  = exportcb (delayed_export s).
Proof.
  rewrite delayed_export_iter.
  rewrite Nat.iter_succ_r. unfold exportcb at 2. simpl.
  rewrite exportcb_idle_iter by done. simpl.
  unfold exportcb, delayed_export. simpl. f_equal. lia.
Qed.

Lemma dep_edge_mark_dirty (edb : eventdb) c a b :
  dep_edge (mark_dirty c edb) a b ↔ dep_edge edb a b.
Proof.
  unfold dep_edge, mark_dirty. destruct (decide (c = a)) as [->|Hne].
  - rewrite lookup_alter_eq. destruct (edb !! a) as [ev|]; simpl.
    + split; intros (ev' & Hev' & Hb); simplify_eq; eauto.
    + split; intros (ev' & Hev' & Hb); simplify_eq.
  - by rewrite lookup_alter_ne.
Qed.

(** X12.  Saving the open event makes every event that depends on it,
    directly or through other events, dirty for the next export pass:
    after a pending [exportcb] with the event [c] open,
    [check_depends_dirty] returns true for each of them. *)
Theorem exportcb_dirties_dependants (s : app) (c e : string) :
  exportpending s = true →
  curevent s = Some c →
  is_Some (a_edb s !! c) →
  rtc (dep_edge (a_edb s)) e c →
  ∃ edb', check_depends_dirty (a_edb (exportcb s)) e = Some (true, edb').
Proof.
  intros Hp Hc Hin Hreach. unfold exportcb. rewrite Hp, Hc. simpl.
  unfold save_curevent.
  destruct (DirtyFacts.check_depends_dirty_total (mark_dirty c (a_edb s)) e)
    as [[b edb'] Hrun].
  exists edb'. rewrite Hrun. do 2 f_equal.
  apply DirtyFacts.check_depends_dirty_outcome in Hrun as (Hiff & _).
  apply Hiff. exists c. split.
  - clear Hiff. induction Hreach as [|x y z Hxy _ IH]; [apply rtc_refl|].
    eapply rtc_l; [|by apply IH]. by apply dep_edge_mark_dirty.
  - by apply DirtyFacts.is_dirty_mark_same.
Qed.

Lemma exportcb_dirties_dependants_witness :
  ∃ edb', check_depends_dirty (a_edb (exportcb app_pending)) "E3"
          = Some (true, edb').
Proof.
  apply (exportcb_dirties_dependants app_pending "E1" "E3").
  - reflexivity.
  - reflexivity.
  - vm_compute. eauto.
  - eapply rtc_l; [|apply rtc_once].
    + eexists. split; [vm_compute; reflexivity|]. vm_compute. by left.
    + eexists. split; [vm_compute; reflexivity|]. vm_compute. by left.
Defined.

End TriggersFacts.

Module MirrorFacts.
Import Mirror.

Lemma one_mirror_step m m' : one_mirror m → mstep m m' → one_mirror m'.
Proof.
  unfold one_mirror. intros Hone Hstep. destruct Hstep as [m|m|m t Ht].
  - unfold mirror_start.
    destruct (mirrorpath m) as [|c p]; [done|].
    destruct (mirror m) as [t|] eqn:Hm.
    { intros t' Ht'. specialize (Hone t' Ht'). congruence. }
    intros t' Ht'. simpl in *.
    apply elem_of_union in Ht' as [Ht'|Ht']; [set_solver|].
    specialize (Hone t' Ht'). congruence.
  - unfold poll_mirror. destruct (mirror m) as [t|] eqn:Hm.
    2:{ intros t' Ht'. specialize (Hone t' Ht'). congruence. }
    destruct (decide (t ∈ m_alive m)) as [Hin|Hnin].
    { intros t' Ht'. specialize (Hone t' Ht'). congruence. }
    intros t' Ht'. simpl in *. specialize (Hone t' Ht'). by simplify_eq.
  - intros t' Ht'. simpl in *. apply Hone. set_solver.
Qed.

Lemma no_path_step m m' :
  mirrorpath m = "" ∧ m_alive m = ∅ ∧ mirror m = None →
  mstep m m' →
  mirrorpath m' = "" ∧ m_alive m' = ∅ ∧ mirror m' = None.
Proof.
  intros (Hp & Ha & Hm) Hstep. destruct Hstep as [m|m|m t Ht].
  - unfold mirror_start. by rewrite Hp.
  - unfold poll_mirror. by rewrite Hm.
  - rewrite Ha in Ht. set_solver.
Qed.

(** X13.  At most one mirror thread runs at any time.  A call of
    [mirror_start] while a handle is set, be it of a running thread or of
    one that has ended and was not yet removed by the timer, does nothing;
    and without a mirror path no thread is ever started. *)
Theorem mirror_single_flight (path : string) (m : mstate) :
  rtc mstep (mstate_init path) m →
  (size (m_alive m) ≤ 1)%nat
  ∧ (is_Some (mirror m) → mirror_start m = m)
  ∧ (path = "" → m_alive m = ∅ ∧ mirror m = None).
Proof.
  intros Hr.
  assert (one_mirror m) as Hone.
  { revert m Hr. apply rtc_ind_r.
    - intros t Ht. set_solver.
    - intros m m' _ Hstep Hone. by eapply one_mirror_step. }
  split; [|split].
  - destruct (set_choose_or_empty (m_alive m)) as [[t Ht]|Hemp].
    + assert (m_alive m ⊆ {[t]}) as Hsub.
      { intros t' Ht'. pose proof (Hone t Ht) as H1.
        pose proof (Hone t' Ht') as H2. rewrite H1 in H2. set_solver. }
      apply subseteq_size in Hsub. by rewrite size_singleton in Hsub.
    + apply size_empty_iff in Hemp. lia.
  - intros [t Ht]. unfold mirror_start. rewrite Ht. by destruct (mirrorpath m).
  - intros ->.
    assert (mirrorpath m = "" ∧ m_alive m = ∅ ∧ mirror m = None) as (_ & ? & ?);
      [|done].
    clear Hone. revert m Hr. apply rtc_ind_r; [done|].
    intros m m' _ Hstep IH. by eapply no_path_step.
Qed.

Lemma mirror_single_flight_witness :
  (size (m_alive (mirror_start (mstate_init "host:/srv/results"))) ≤ 1)%nat
  ∧ mirror_start (mirror_start (mstate_init "host:/srv/results"))
    = mirror_start (mstate_init "host:/srv/results").
Proof.
  destruct (mirror_single_flight "host:/srv/results"
              (mirror_start (mstate_init "host:/srv/results")))
    as (Hsz & Hnop & _).
  { apply rtc_once. apply mstep_start. }
  split; [exact Hsz|]. apply Hnop. simpl. eauto.
Defined.

End MirrorFacts.

Module DistanceFacts.
Import Distance.

(** X14.  With the track length as [loadconfig] leaves it, a count of
    laps is converted to whole metres rounded down: the result [r] is the
    one integer with [d * r <= n * c < d * r + d]; no division by zero can
    occur, and a count that is not negative gives a distance that is not
    negative and at most 5499 metres a lap. *)
Theorem get_distance_laps int_str (tracklen_n tracklen_d c : Z) :
  let n := (check_tracklen tracklen_n tracklen_d).1 in
  let d := (check_tracklen tracklen_n tracklen_d).2 in
  ∃ r, get_distance int_str n d (PInt c) "laps" = Some r
     ∧ (d * r ≤ n * c)%Z ∧ (n * c < d * r + d)%Z
     ∧ ((0 ≤ c)%Z → (0 ≤ r)%Z ∧ (r ≤ 5499 * c)%Z).
Proof.
  unfold check_tracklen.
  destruct ((0 <? tracklen_n)%Z && (tracklen_n <? 5500)%Z
            && (0 <? tracklen_d)%Z && (tracklen_d <? 10)%Z) eqn:Hok; simpl.
  - apply andb_true_iff in Hok as [Hok H4].
    apply andb_true_iff in Hok as [Hok H3].
    apply andb_true_iff in Hok as [H1 H2].
    apply Z.ltb_lt in H1, H2, H3, H4.
    unfold get_distance. simpl.
    destruct (tracklen_d =? 1)%Z eqn:Hd1; simpl.
    + apply Z.eqb_eq in Hd1 as ->. eexists. split; [done|]. nia.
    + rewrite (proj2 (Z.ltb_lt 0 tracklen_d)) by done.
      eexists. split; [done|].
      pose proof (Z.div_mod (tracklen_n * c) tracklen_d ltac:(lia)) as Hdm.
      pose proof (Z.mod_pos_bound (tracklen_n * c) tracklen_d ltac:(lia)) as Hmb.
      split; [lia|]. split; [lia|]. intros Hc.
      assert (0 ≤ tracklen_n * c / tracklen_d)%Z by (apply Z.div_pos; nia).
      split; [done|]. nia.
  - unfold get_distance. simpl. eexists. split; [done|]. lia.
Qed.

End DistanceFacts.

Module BackupFacts.
Import Backup.

#[local] Instance backup_name_inj baseno : Inj (=) (=) (backup_name baseno).
Proof.
  intros i j H. unfold backup_name in H.
  apply (inj (String.app baseno)) in H.
  apply (inj (String.app ".")) in H.
  by apply (inj pretty) in H.
Qed.

Lemma backup_names_bound (edb : eventdb) baseno c :
  (∀ j, (1 ≤ j)%nat → (j < c)%nat → is_Some (edb !! backup_name baseno j)) →
  (c ≤ S (size edb))%nat.
Proof.
  intros Hin.
  set (l := backup_name baseno <$> seq 1 (c - 1)).
  assert (Hnd : NoDup l).
  { apply (NoDup_fmap_2 _). apply NoDup_seq. }
  assert (Hsub : (list_to_set l : gset string) ⊆ dom edb).
  { intros x Hx. apply elem_of_list_to_set in Hx.
    apply list_elem_of_fmap in Hx as (j & -> & Hj).
    apply elem_of_seq in Hj. apply elem_of_dom. apply Hin; lia. }
  apply subseteq_size in Hsub.
  rewrite size_list_to_set in Hsub by done.
  rewrite size_dom in Hsub.
  unfold l in Hsub. rewrite length_fmap, length_seq in Hsub. lia.
Qed.

Lemma backup_loop_spec (edb : eventdb) baseno fuel : ∀ c,
  (1 ≤ c)%nat →
  (∀ j, (1 ≤ j)%nat → (j < c)%nat → is_Some (edb !! backup_name baseno j)) →
  (S (size edb) < fuel + c)%nat →
  ∃ k, (c ≤ k)%nat
     ∧ backup_loop fuel edb baseno c (backup_name baseno c)
       = Some (backup_name baseno k)
     ∧ edb !! backup_name baseno k = None
     ∧ ∀ j, (1 ≤ j)%nat → (j < k)%nat →
         is_Some (edb !! backup_name baseno j).
Proof.
  induction fuel as [|fuel IH]; intros c Hc Hin Hfuel.
  - pose proof (backup_names_bound edb baseno c Hin). lia.
  - simpl. destruct (decide (is_Some (edb !! backup_name baseno c))) as [Hc'|Hc'].
    + destruct (IH (S c)) as (k & Hk & Hrun & Hfree & Hbelow); [lia| |lia|].
      { intros j Hj1 Hj2. destruct (decide (j = c)) as [->|]; [done|].
        apply Hin; lia. }
      exists k. split; [lia|]. done.
    + exists c. split; [lia|]. split; [done|]. split; [|done].
      by apply eq_None_not_Some.
Qed.

(** X15.  When the number an event is renamed to is taken, the search for
    a backup number ends and gives [baseno.k] for the least [k >= 1] whose
    number is free, [baseno] being the taken number without its last
    dotted suffix: the backup never overwrites another event. *)
Theorem backup_evno_first_free (edb : eventdb) (newevno : string) :
  is_Some (edb !! newevno) →
  let baseno := rsplit1_head "." newevno in
  ∃ k, (1 ≤ k)%nat
     ∧ backup_evno edb newevno = Some (backup_name baseno k)
     ∧ edb !! backup_name baseno k = None
     ∧ ∀ j, (1 ≤ j)%nat → (j < k)%nat →
         is_Some (edb !! backup_name baseno j).
Proof.
  intros Hin baseno. unfold backup_evno.
  change (backup_loop (S (S (size edb))) edb (rsplit1_head "." newevno) 0 newevno)
    with (if decide (is_Some (edb !! newevno))
          then backup_loop (S (size edb)) edb baseno 1 (backup_name baseno 1)
          else Some newevno).
  destruct (decide (is_Some (edb !! newevno))); [|done].
  apply backup_loop_spec; [lia| |lia].
  intros j ??. lia.
Qed.

Lemma backup_evno_first_free_witness :
  is_Some (Examples.ren_edb !! "2")
  ∧ ∃ k, (1 ≤ k)%nat
     ∧ backup_evno Examples.ren_edb "2" = Some (backup_name "2" k)
     ∧ Examples.ren_edb !! backup_name "2" k = None.
Proof.
  assert (Hin : is_Some (Examples.ren_edb !! "2")) by (vm_compute; eauto).
  split; [done|].
  destruct (backup_evno_first_free Examples.ren_edb "2" Hin)
    as (k & Hk & Hrun & Hfree & _).
  exists k. split; [done|]. split; [exact Hrun|exact Hfree].
Defined.

End BackupFacts.

Module LinksFacts.
Import Links.

Section UpdateNexPrevFacts.

Variable webfile : string → string.

Lemma non_empty_spec s : Renumber.non_empty s = true ↔ s ≠ "".
Proof. destruct s; simpl; split; try done. Qed.

Lemma links_ok_add evidx evlinks r :
  links_ok webfile evidx evlinks → ¬ is_Some (evlinks !! r) →
  links_ok webfile (evidx ++ [r]) (<[r := linkfile webfile r]> evlinks).
Proof.
  intros [Hnd Hl] Hr.
  assert (Hnot : r ∉ evidx).
  { intros Hin. apply Hr. rewrite Hl. by rewrite decide_True. }
  split.
  - apply NoDup_app. split; [done|]. split; [|apply NoDup_singleton].
    intros x Hx Hx'. apply list_elem_of_singleton in Hx' as ->. done.
  - intros x. destruct (decide (x = r)) as [->|Hne].
    + rewrite lookup_insert_eq. rewrite decide_True; [done|].
      apply elem_of_app. right. by apply list_elem_of_singleton.
    + rewrite lookup_insert_ne by done. rewrite Hl.
      destruct (decide (x ∈ evidx)) as [Hx|Hx].
      * rewrite decide_True; [done|]. apply elem_of_app. by left.
      * rewrite decide_False; [done|]. intros Hx'.
        apply elem_of_app in Hx' as [?|Hx']; [done|].
        by apply list_elem_of_singleton in Hx'.
Qed.

Lemma index_scan_spec rows : ∀ evidx evlinks evidx' evlinks',
  links_ok webfile evidx evlinks →
  index_scan webfile rows evidx evlinks = (evidx', evlinks') →
  links_ok webfile evidx' evlinks'
  ∧ ∀ r, r ∈ evidx' ↔ r ∈ evidx ∨ ∃ eh, eh ∈ rows ∧ listed eh r.
Proof.
  induction rows as [|eh rows IH]; intros evidx evlinks evidx' evlinks' Hok Hrun.
  - simpl in Hrun. injection Hrun as <- <-. split; [done|].
    intros r. split; [by left|]. intros [?|(eh & Heh & _)]; [done|].
    by apply elem_of_nil in Heh.
  - simpl in Hrun.
    assert (Hskip : (∀ r, ¬ listed eh r ∨ r ∈ evidx) →
      index_scan webfile rows evidx evlinks = (evidx', evlinks') →
      links_ok webfile evidx' evlinks'
      ∧ ∀ r, r ∈ evidx' ↔ r ∈ evidx ∨ ∃ eh', eh' ∈ eh :: rows ∧ listed eh' r).
    { intros Hno Hrun'. destruct (IH _ _ _ _ Hok Hrun') as [Hok' Hmem].
      split; [done|]. intros r. rewrite Hmem. split.
      - intros [?|(eh' & Hin & Hl)]; [by left|]. right. exists eh'.
        split; [by apply elem_of_cons; right|done].
      - intros [?|(eh' & Hin & Hl)]; [by left|].
        apply elem_of_cons in Hin as [->|Hin].
        + destruct (Hno r) as [?|?]; [done|by left].
        + right. by exists eh'. }
    destruct (ix_inde eh || ev_resu (ix_ev eh)) eqn:Hinc;
      [|apply Hskip; [|done]; intros r; left; intros [Hl _]; congruence].
    destruct (referno_of eh) as [referno|] eqn:Href;
      [|apply Hskip; [|done]; intros r; left; intros (_ & Hl & _); congruence].
    destruct (Renumber.non_empty referno) eqn:Hne;
      [|apply Hskip; [|done]; intros r; left; intros (_ & Hl & Hr);
        assert (r = referno) as -> by congruence;
        apply non_empty_spec in Hr; congruence].
    apply non_empty_spec in Hne.
    destruct (decide (is_Some (evlinks !! referno))) as [Hk|Hk].
    + apply Hskip; [|done]. intros r.
      destruct (decide (r = referno)) as [->|Hr].
      * right. destruct Hok as [_ Hl]. rewrite Hl in Hk.
        destruct (decide (referno ∈ evidx)); [done|]. by destruct Hk.
      * left. intros (_ & Hl & _). congruence.
    + destruct (IH _ _ _ _ (links_ok_add _ _ _ Hok Hk) Hrun) as [Hok' Hmem].
      split; [done|]. intros r. rewrite Hmem. split.
      * intros [Hin|(eh' & Hin & Hl)].
        -- apply elem_of_app in Hin as [?|Hin]; [by left|].
           apply list_elem_of_singleton in Hin as ->. right. exists eh.
           split; [by apply elem_of_cons; left|done].
        -- right. exists eh'. split; [by apply elem_of_cons; right|done].
      * intros [Hin|(eh' & Hin & Hl)].
        -- left. apply elem_of_app. by left.
        -- apply elem_of_cons in Hin as [->|Hin].
           ++ left. destruct Hl as (_ & Hl & _).
              assert (r = referno) as -> by congruence.
              apply elem_of_app. right. by apply list_elem_of_singleton.
           ++ right. by exists eh'.
Qed.

Lemma elem_of_removelast (x : string) l : x ∈ removelast l → x ∈ l.
Proof.
  induction l as [|y [|z l] IH]; simpl; intros Hin.
  - done.
  - by apply elem_of_nil in Hin.
  - apply elem_of_cons in Hin as [->|Hin]; [apply elem_of_cons; by left|].
    apply elem_of_cons. right. by apply IH.
Qed.

Lemma link_scan_spec (evlinks : gmap string string) l : ∀ p nextlinks prevlinks,
  NoDup (p :: l) →
  (∀ x, x ∈ p :: l → evlinks !! x = Some (linkfile webfile x)) →
  ∃ nl pl, link_scan l (Some p) evlinks nextlinks prevlinks = Some (nl, pl)
    ∧ (∀ l1 a b l2, p :: l = (l1 ++ a :: b :: l2)%list →
         nl !! a = Some (linkfile webfile b) ∧ pl !! b = Some (linkfile webfile a))
    ∧ (∀ a, a ∉ removelast (p :: l) → nl !! a = nextlinks !! a)
    ∧ (∀ b, b ∉ l → pl !! b = prevlinks !! b).
Proof.
  induction l as [|x r IH]; intros p nextlinks prevlinks Hnd Hev.
  - exists nextlinks, prevlinks. split; [done|]. split; [|done].
    intros [|? [|? ?]] a b l2 Heq; simplify_eq.
  - cbn [link_scan].
    rewrite (Hev x) by (apply elem_of_cons; right; apply elem_of_cons; by left).
    rewrite (Hev p) by (apply elem_of_cons; by left).
    apply NoDup_cons in Hnd as [Hp Hnd].
    destruct (IH x (<[p := linkfile webfile x]> nextlinks)
                (<[x := linkfile webfile p]> prevlinks) Hnd)
      as (nl & pl & Hrun & Hpairs & Hnf & Hpf).
    { intros y Hy. apply Hev. apply elem_of_cons. by right. }
    exists nl, pl. split; [done|].
    assert (Hx : x ∉ r) by (by apply NoDup_cons in Hnd as [? _]).
    split; [|split].
    + intros l1 a b l2 Heq. destruct l1 as [|p' l1].
      * simpl in Heq. injection Heq as <- <- <-.
        rewrite Hnf, Hpf
          by (try done; intros Hin; apply Hp; by apply elem_of_removelast).
        by rewrite !lookup_insert_eq.
      * simpl in Heq. injection Heq as <- Heq. by apply (Hpairs l1 a b l2).
    + intros a Ha. change (removelast (p :: x :: r)) with (p :: removelast (x :: r)) in Ha.
      apply not_elem_of_cons in Ha as [Hap Ha].
      rewrite Hnf by done. by rewrite lookup_insert_ne.
    + intros b Hb. apply not_elem_of_cons in Hb as [Hbx Hb].
      rewrite Hpf by done. by rewrite lookup_insert_ne.
Qed.

(** X16.  [updatenexprev] always completes (no link file is looked up
    that was not recorded).  The published numbers are those of the rows
    flagged for the index or the results, by reference when a row has
    one, breaks and sessions without a reference left out, each number
    once.  Of any two consecutive published numbers the first has the
    file of the second as next link and the second the file of the first
    as previous link; the last number has no next link, the first no
    previous link, and no other number has any link. *)
Theorem updatenexprev_links (rows : list index_row) :
  ∃ nl pl, updatenexprev webfile rows = Some (nl, pl)
    ∧ NoDup (published webfile rows)
    ∧ (∀ r, r ∈ published webfile rows ↔ ∃ eh, eh ∈ rows ∧ listed eh r)
    ∧ (∀ l1 a b l2, published webfile rows = (l1 ++ a :: b :: l2)%list →
         nl !! a = Some (linkfile webfile b)
         ∧ pl !! b = Some (linkfile webfile a))
    ∧ (∀ a, a ∉ removelast (published webfile rows) → nl !! a = None)
    ∧ (∀ b, b ∉ tail (published webfile rows) → pl !! b = None).
Proof.
  unfold updatenexprev, published.
  destruct (index_scan webfile rows [] ∅) as [evidx evlinks] eqn:Hscan.
  destruct (index_scan_spec rows [] ∅ evidx evlinks) as [[Hnd Hl] Hmem];
    [|done|].
  { split; [apply NoDup_nil_2|]. intros r. rewrite lookup_empty.
    rewrite decide_False; [done|]. apply not_elem_of_nil. }
  simpl.
  assert (Hmem' : ∀ r, r ∈ evidx ↔ ∃ eh, eh ∈ rows ∧ listed eh r).
  { intros r. rewrite Hmem. split; [|by right].
    intros [Hin|?]; [by apply elem_of_nil in Hin|done]. }
  destruct evidx as [|p l].
  - exists ∅, ∅. split; [done|]. split; [done|]. split; [done|].
    split; [|done]. intros [|? ?] a b l2 Heq; simplify_eq.
  - cbn [link_scan].
    destruct (link_scan_spec evlinks l p ∅ ∅ Hnd)
      as (nl & pl & Hrun & Hpairs & Hnf & Hpf).
    { intros x Hx. rewrite Hl. by rewrite decide_True. }
    exists nl, pl. split; [done|]. split; [done|]. split; [done|].
    split; [done|]. split.
    + intros a Ha. by rewrite Hnf.
    + intros b Hb. by rewrite Hpf.
Qed.

End UpdateNexPrevFacts.

End LinksFacts.
